(** * feathergui, fgOpenGL: GLError / GLExpected and the owned GL handles

    A shallow embedding of [src/fgOpenGL/GLError.h] and of the objects
    declared in [src/fgOpenGL/FrameBuffer.hpp] and
    [src/fgOpenGL/ProgramObject.h].

    Conventions of the embedding.
    - [GLenum] is a 32-bit unsigned integer, carried as a [Z] in
      [0, 2^32); the bit operations of the header are [Z.land], [Z.lor]
      and a 32-bit complement.
    - [const char*] is [option string]; [nullptr] is [None].
    - A member function that mutates [*this] returns the new object next
      to its result.  A move returns the new object and what is left in
      the moved-from one.
    - The header is read with [_DEBUG] defined: [GLExpected] names
      [GLError::UNCHECKED_FLAG] outside every [#ifdef], so that is the
      only configuration in which the class template is well-formed.
      Whether [assert] is live is a separate switch ([NDEBUG]) and is a
      parameter of every function that asserts.
    - [outcome] is the result of running a piece of the program:
      it finishes with a value, it stops in a failed [assert], or it
      reads a member of the union that is not the live one. *)

From stdpp Require Import base numbers option list gmap strings.

Local Open Scope Z_scope.

(** ** Outcomes *)

Inductive outcome (A : Type) : Type :=
  | Done (a : A)
  | AssertionFailed
  | Undefined.
Arguments Done {A} a.
Arguments AssertionFailed {A}.
Arguments Undefined {A}.

#[global] Instance outcome_ret : MRet outcome := λ A a, Done a.
#[global] Instance outcome_bind : MBind outcome := λ A B f m,
  match m with
  | Done a => f a
  | AssertionFailed => AssertionFailed
  | Undefined => Undefined
  end.

(** [assert(c)] of <assert.h>: nothing at all under [NDEBUG]. *)
Definition assert_ (NDEBUG : bool) (c : bool) : outcome unit :=
  if NDEBUG || c then Done () else AssertionFailed.

(** ** GLenum and the two reserved words of [GLError] *)

Definition GLenum := Z.

Definition GLenum_bits : Z := 4 * 8.           (* sizeof(GLenum) * 8 *)
Definition GLenum_max : Z := Z.ones GLenum_bits.

(** [~x] on a [GLenum]. *)
Definition lnot32 (x : Z) : Z := Z.lxor x GLenum_max.

Definition GL_NO_ERROR : GLenum := 0.
Definition GL_INVALID_ENUM : GLenum := 0x0500.
Definition GL_INVALID_VALUE : GLenum := 0x0501.
Definition GL_INVALID_OPERATION : GLenum := 0x0502.
Definition GL_OUT_OF_MEMORY : GLenum := 0x0505.

(** [static const GLenum INVALID_ERROR = ~(1 << ((sizeof(GLenum) * 8) - 1));] *)
Definition INVALID_ERROR : GLenum := lnot32 (Z.shiftl 1 (GLenum_bits - 1)).
(** [static const GLenum UNCHECKED_FLAG = ~INVALID_ERROR;] *)
Definition UNCHECKED_FLAG : GLenum := lnot32 INVALID_ERROR.

(** The error codes a GLenum argument can carry: what [GLError::has_error]
    reports as an error once the flag is masked off. *)
Definition error_code (err : GLenum) : Prop :=
  Z.land err (lnot32 UNCHECKED_FLAG) ≠ GL_NO_ERROR
  ∧ Z.land err (lnot32 UNCHECKED_FLAG) ≠ INVALID_ERROR.

(** ** class GLError *)

Module GLError.

Record t : Type := Build { _error : GLenum; _context : option string }.

(** [constexpr GLError() noexcept] *)
Definition default : t := Build (Z.lor GL_NO_ERROR UNCHECKED_FLAG) None.

(** [GLError(GLError&& right)]: the new object and what is left in [right]. *)
Definition move (right : t) : t * t :=
  (Build (_error right) (_context right), Build GL_NO_ERROR None).

(** [explicit GLError(const char* context)]; [glGetError] is the driver's
    pending error, an input here. *)
Definition of_context (glGetError : GLenum) (context : option string) : t :=
  Build (Z.lor glGetError UNCHECKED_FLAG) context.

(** [explicit GLError(GLenum err, const char* context)] *)
Definition make (err : GLenum) (context : option string) : t :=
  Build (Z.lor err UNCHECKED_FLAG) context.

(** [explicit GLError(std::in_place_t, GLenum err, const char* context)] *)
Definition in_place (err : GLenum) (context : option string) : t :=
  Build err context.

(** [~GLError() { assert(!(_error & UNCHECKED_FLAG)); }] *)
Definition dtor (NDEBUG : bool) (e : t) : outcome unit :=
  assert_ NDEBUG (Z.land (_error e) UNCHECKED_FLAG =? 0).

Definition _clean (e : t) : GLenum := Z.land (_error e) (lnot32 UNCHECKED_FLAG).

Definition _checked (e : t) : t :=
  Build (Z.land (_error e) (lnot32 UNCHECKED_FLAG)) (_context e).

Definition has_error (e : t) : bool * t :=
  let e1 := _checked e in
  let c := _clean e1 in
  (negb (c =? INVALID_ERROR) && negb (c =? GL_NO_ERROR), e1).

Definition peek (e : t) : bool := _clean e =? GL_NO_ERROR.

(** [std::pair<GLenum, const char*> take() &&].  The pair is built after
    [_context] has been overwritten, as the source has it. *)
Definition take (e : t) : (GLenum * option string) * t :=
  if _error e =? INVALID_ERROR then ((INVALID_ERROR, None), e)
  else
    let err := _error e in
    let e1 := Build GL_NO_ERROR (_context e) in
    let e2 := Build (_error e1) None in
    ((err, _context e2), e2).

(** [GLError& operator=(GLError&& right)] *)
Definition assign (NDEBUG : bool) (this right : t) : outcome (t * t) :=
  _ ← dtor NDEBUG this;
  mret (Build (_error right) (_context right), Build GL_NO_ERROR None).

(** [bool operator==(const GLError& e) noexcept { return e._error == _error; }] *)
Definition eq (this e : t) : bool := _error e =? _error this.

(** [bool operator!=(const GLError& e) noexcept { return e._error != _error; }] *)
Definition neq (this e : t) : bool := negb (_error e =? _error this).

End GLError.

(** ** template<class T> class GLExpected *)

Module GLExpected.

(** The anonymous union [{ const char* _context; T _result; }]: which
    member was written last, and with what. *)
Inductive storage (T : Type) : Type :=
  | indeterminate
  | context_member (c : option string)
  | result_member (r : T).
Arguments indeterminate {T}.
Arguments context_member {T} c.
Arguments result_member {T} r.

Record t (T : Type) : Type := Build { _error : GLenum; _union : storage T }.
Arguments Build {T} _error _union.
Arguments _error {T} _.
Arguments _union {T} _.

Section WithValueType.
Context {T : Type}.
(** What the move constructor of [T] leaves in its source. *)
Variable moved_from : T → T.
Variable NDEBUG : bool.

(** Reading a member of the union. *)
Definition _context (x : t T) : outcome (option string) :=
  match _union x with context_member c => Done c | _ => Undefined end.
Definition _result (x : t T) : outcome T :=
  match _union x with result_member r => Done r | _ => Undefined end.

Definition peek (x : t T) : bool :=
  Z.land (_error x) (lnot32 UNCHECKED_FLAG) =? GL_NO_ERROR.

Definition _checked (x : t T) : t T :=
  Build (Z.land (_error x) (lnot32 UNCHECKED_FLAG)) (_union x).

(** [constexpr GLExpected() : _error(GLError::INVALID_ERROR) {}] *)
Definition default : t T := Build INVALID_ERROR indeterminate.

(** The body shared by [GLExpected(GLExpected&&)] and
    [operator=(GLExpected&&)] once [_error] is copied: the new object
    and what is left in [right]. *)
Definition move (right : t T) : outcome (t T * t T) :=
  let e := _error right in
  if e =? INVALID_ERROR then mret (Build e indeterminate, right)
  else if peek (Build e indeterminate) then
    r ← _result right;
    mret (Build e (result_member r),
          Build (_error right) (result_member (moved_from r)))
  else
    c ← _context right;
    mret (Build e (context_member c),
          Build INVALID_ERROR (context_member None)).

(** [template<class U> GLExpected(GLExpected<U>&& right)]: the same body,
    with [T] constructed from the [U] that is moved out. *)
Definition move_convert {U : Type} (convert : U → T) (moved_from_U : U → U)
    (right : t U) : outcome (t T * t U) :=
  let e := _error right in
  if e =? INVALID_ERROR then mret (Build e indeterminate, right)
  else if peek (Build e indeterminate) then
    r ← match _union right with result_member r => Done r | _ => Undefined end;
    mret (Build e (result_member (convert r)),
          Build (_error right) (result_member (moved_from_U r)))
  else
    c ← match _union right with context_member c => Done c | _ => Undefined end;
    mret (Build e (context_member c),
          Build INVALID_ERROR (context_member None)).

(** [GLExpected(U&& right)] and [GLExpected(std::in_place_t, Args&&...)] *)
Definition of_value (v : T) : t T :=
  Build (Z.lor GL_NO_ERROR UNCHECKED_FLAG) (result_member v).

(** [GLExpected(GLError&& right)]: the new object and what is left in
    [right]. *)
Definition of_error (right : GLError.t) : t T * GLError.t :=
  let '((err, ctx), right') := GLError.take right in
  if err =? INVALID_ERROR then (Build err indeterminate, right')
  else (Build err (context_member ctx), right').

(** [~GLExpected()] *)
Definition dtor (x : t T) : outcome unit :=
  if negb (_error x =? INVALID_ERROR) then
    _ ← (if peek x then _ ← _result x; mret () else mret ());
    assert_ NDEBUG (Z.land (_error x) UNCHECKED_FLAG =? 0)
  else mret ().

(** [operator=(GLExpected&& right)] *)
Definition assign (this right : t T) : outcome (t T * t T) :=
  _ ← dtor this;
  move right.

(** [operator=(U&& right)] *)
Definition assign_value (this : t T) (v : T) : outcome (t T) :=
  _ ← dtor this;
  mret (Build (Z.lor GL_NO_ERROR UNCHECKED_FLAG) (result_member v)).

Definition has_value (x : t T) : bool * t T :=
  let x1 := _checked x in (peek x1, x1).

Definition has_error (x : t T) : bool * t T :=
  let '(b, x1) := has_value x in
  (negb b && negb (_error x1 =? INVALID_ERROR), x1).

(** [value()], all four overloads: [assert(peek()); return _result;] *)
Definition value (x : t T) : outcome T :=
  _ ← assert_ NDEBUG (peek x);
  _result x.

(** [operator->()], both overloads: [assert(peek()); return &_result;]
    The pointer is modelled by the object it points at. *)
Definition arrow (x : t T) : outcome T :=
  _ ← assert_ NDEBUG (peek x);
  _result x.

(** [operator*()], all four overloads: [return value();] *)
Definition deref (x : t T) : outcome T := value x.

Definition _grab (x : t T) : outcome GLError.t :=
  c ← (if peek x then mret None else _context x);
  mret (GLError.in_place (_error x) c).

(** [value_or(U&& right) const&] *)
Definition value_or (x : t T) (right : T) : outcome T :=
  if peek x then _result x else mret right.

(** [value_or(U&& right) &&]: the value and what is left in [*this]. *)
Definition value_or_rvalue (x : t T) (right : T) : outcome (T * t T) :=
  if peek x then
    r ← _result x;
    mret (r, Build (_error x) (result_member (moved_from r)))
  else mret (right, x).

(** [constexpr GLError take() noexcept]: the error and the new [*this]. *)
Definition take (x : t T) : outcome (GLError.t * t T) :=
  _ ← assert_ NDEBUG (negb (_error x =? INVALID_ERROR));
  e ← _grab x;
  let x1 := if negb (peek x) then Build INVALID_ERROR (context_member None) else x in
  mret (e, x1).

(** *** The three states of the specification, read on the object *)

Definition consumed (x : t T) : Prop := _error x = INVALID_ERROR.

Definition holds_value (x : t T) (v : T) : Prop :=
  peek x = true ∧ _union x = result_member v.

Definition holds_error (x : t T) (c : option string) : Prop :=
  peek x = false ∧ _error x ≠ INVALID_ERROR ∧ _union x = context_member c.

(** The debug flag is still set: nothing has checked the object. *)
Definition unchecked (x : t T) : Prop :=
  Z.land (_error x) UNCHECKED_FLAG ≠ 0.

End WithValueType.

End GLExpected.

(** [#define GL_ERROR(name) if(GLError e{ name }) { return e; }]
    [glGetError] is the error the driver has pending.  [Some r] is the
    Result the enclosing function returns with; [None] is falling through
    to the next statement. *)
Definition GL_ERROR {T : Type} (glGetError : GLenum) (name : option string)
    : option (GLExpected.t T) :=
  let e := GLError.of_context glGetError name in
  let '(b, e1) := GLError.has_error e in
  if b then Some (GLExpected.of_error e1).1 else None.

(** ** Coroutine support: [GLExpected::promise_type] *)

Module promise_type.

(** [struct promise_type { GLExpected* expected; ... }].  [expected] points
    at the coroutine's return object, which is the caller's Result; the
    record holds that object. *)
Record t (T : Type) : Type := Build { expected : GLExpected.t T }.
Arguments Build {T} expected.
Arguments expected {T} _.

Section WithValueType.
Context {T : Type}.
Variable moved_from : T → T.
Variable NDEBUG : bool.

(** [void return_value(GLExpected result) { *expected = std::move(result); }]
    The by-value parameter is destroyed when the call returns. *)
Definition return_value (p : t T) (result : GLExpected.t T) : outcome (t T) :=
  '(e, result') ← GLExpected.assign moved_from NDEBUG (expected p) result;
  _ ← GLExpected.dtor NDEBUG result';
  mret (Build e).

End WithValueType.

End promise_type.

Module Coroutine.

Section WithValueType.
Context {T : Type}.

(** The union's live member agrees with the error word. *)
Definition well_formed (x : GLExpected.t T) : Prop :=
  GLExpected.consumed x
  ∨ (∃ v, GLExpected.holds_value x v)
  ∨ (∃ c, GLExpected.holds_error x c).

End WithValueType.

End Coroutine.

(** ** The owned handle: [Ref<IS_VALID, DELETE>] / [GLRef<IS_VALID, DELETE>]

    [FrameBuffer.hpp] and [ProgramObject.h] derive their classes from this
    template and default every special member function to it; the
    template itself is in a header that is not among the sources. *)

Definition GLuint := N.

(** The driver's state together with the log of the calls made to the
    allocation function and to the injected release function. *)
Record world (D : Type) : Type :=
  World { gl : D; generated : list GLuint; deleted : list GLuint }.
Arguments World {D} gl generated deleted.
Arguments gl {D} _.
Arguments generated {D} _.
Arguments deleted {D} _.

Module Ref.

Record t : Type := Build { _ref : GLuint }.

Section WithResource.
Context {D : Type}.
(** The two template arguments. *)
Variable IS_VALID : GLuint → D → bool.
Variable DELETE : GLuint → D → D.

(** Modelled from the spec: the default constructor of the owned handle
    (absent header); a handle that names nothing holds the null id. *)
Definition default : t := Build 0%N.

(** Modelled from the spec: the constructor from a native id (absent
    header), "wraps a native resource identifier". *)
Definition of_name (ref : GLuint) : t := Build ref.

(** Modelled from the spec: [is_valid()] of the owned handle (absent
    header), "true iff the wrapped id is non-null and the validity
    predicate accepts it". *)
Definition is_valid (h : t) (w : world D) : bool :=
  negb (_ref h =? 0)%N && IS_VALID (_ref h) (gl w).

(** Modelled from the spec: move construction of the owned handle
    (absent header), "transfers the id and nulls the source": the new
    handle and what is left in the source. *)
Definition move (right : t) : t * t := (Build (_ref right), Build 0%N).

(** Modelled from the spec: the destructor of the owned handle (absent
    header), "if [is_valid()], invoke release exactly once, then null
    the id". *)
Definition dtor (h : t) (w : world D) : t * world D :=
  if is_valid h w
  then (Build 0%N, World (DELETE (_ref h) (gl w)) (generated w) (deleted w ++ [_ref h]))
  else (h, w).

End WithResource.

End Ref.

(** ** Handles in a scope

    A piece of client code is a list of operations on the handles it has
    declared, in order of declaration; [None] marks a handle whose lifetime
    has ended.  Leaving the scope, on whatever path, destroys the handles
    still alive, last declared first. *)

Module Scope.

Inductive op : Type :=
  | Default                      (* H h;                       *)
  | Create                       (* the factory: allocate, wrap *)
  | MoveCtor (src : nat)         (* H h(std::move(src));       *)
  | MoveAssign (dst src : nat)   (* dst = std::move(src);      *)
  | Destroy (v : nat).           (* the lifetime of v ends     *)

Record t (D : Type) : Type := Build { handles : list (option Ref.t); w : world D }.
Arguments Build {D} handles w.
Arguments handles {D} _.
Arguments w {D} _.

Section WithResource.
Context {D : Type}.
Variable IS_VALID : GLuint → D → bool.
Variable DELETE : GLuint → D → D.
(** The driver call the factory allocates with ([glGenFramebuffers],
    [glCreateProgram], [glCreateShader]); the name 0 reports failure. *)
Variable GEN : D → GLuint * D.

Definition alive (hs : list (option Ref.t)) (v : nat) : option Ref.t :=
  mjoin (hs !! v).

(** Modelled from the spec: move assignment of the owned handle (absent
    header), "transfers the id and nulls the source".  The specification
    states nothing else of it: what the target held is overwritten.  The
    two writes go through the store, so that [dst] and [src] may be one
    handle. *)
Definition move_assign (dst src : nat) (s : t D) : option (t D) :=
  _ ← alive (handles s) dst;
  right ← alive (handles s) src;
  let '(new, old) := Ref.move right in
  Some (Build (<[src := Some old]> (<[dst := Some new]> (handles s))) (w s)).

Definition step (o : op) (s : t D) : option (t D) :=
  match o with
  | Default => Some (Build (handles s ++ [Some Ref.default]) (w s))
  | Create =>
      let '(name, d) := GEN (gl (w s)) in
      if (name =? 0)%N
      then Some (Build (handles s) (World d (generated (w s)) (deleted (w s))))
      else Some (Build (handles s ++ [Some (Ref.of_name name)])
                       (World d (generated (w s) ++ [name]) (deleted (w s))))
  | MoveCtor src =>
      right ← alive (handles s) src;
      let '(new, old) := Ref.move right in
      Some (Build (<[src := Some old]> (handles s) ++ [Some new]) (w s))
  | MoveAssign dst src => move_assign dst src s
  | Destroy v =>
      h ← alive (handles s) v;
      let '(_, w1) := Ref.dtor IS_VALID DELETE h (w s) in
      Some (Build (<[v := None]> (handles s)) w1)
  end.

Fixpoint run (ops : list op) (s : t D) : option (t D) :=
  match ops with
  | [] => Some s
  | o :: ops => s1 ← step o s; run ops s1
  end.

Definition destroy_if_alive (v : nat) (s : t D) : t D :=
  default s (step (Destroy v) s).

(** Leaving the scope: every handle still alive is destroyed, the last
    declared first. *)
Definition unwind (s : t D) : t D :=
  foldr destroy_if_alive s (seq 0 (length (handles s))).

End WithResource.

(** What the lifetime argument needs of the driver: a name the allocation
    call hands out is new and names a live object, and no call disturbs
    the objects of other names.  [bound] is a name no object has had
    yet. *)
Class DriverLaws {D : Type} (IS_VALID : GLuint → D → bool)
    (DELETE : GLuint → D → D) (GEN : D → GLuint * D) (bound : D → N) : Prop := {
  gen_valid d : (GEN d).1 ≠ 0%N → IS_VALID (GEN d).1 (GEN d).2 = true;
  gen_fresh d : (GEN d).1 ≠ 0%N → (bound d ≤ (GEN d).1 < bound (GEN d).2)%N;
  gen_bound d : (bound d ≤ bound (GEN d).2)%N;
  gen_other d j : j ≠ (GEN d).1 → IS_VALID j (GEN d).2 = IS_VALID j d;
  delete_other d i j : j ≠ i → IS_VALID j (DELETE i d) = IS_VALID j d;
  delete_bound d i : bound (DELETE i d) = bound d;
  delete_invalid d i : IS_VALID i (DELETE i d) = false;
}.

End Scope.

(** ** FrameBuffer *)

Module FrameBuffer.

(** [struct FrameBuffer : Ref<&IsFrameBuffer, &DeleteFrameBuffer>] with
    the member [int NumberOfColorAttachments = 0;] *)
Record t : Type := Build { ref : Ref.t; NumberOfColorAttachments : Z }.

Definition GL_COLOR_ATTACHMENT0 : GLenum := 0x8CE0.
Definition GL_DEPTH_ATTACHMENT : GLenum := 0x8D00.
Definition GL_STENCIL_ATTACHMENT : GLenum := 0x8D20.

(** The attachment points [GL_COLOR_ATTACHMENT0 .. GL_COLOR_ATTACHMENT31]. *)
Definition is_color (type : GLenum) : bool :=
  (GL_COLOR_ATTACHMENT0 <=? type) && (type <? GL_COLOR_ATTACHMENT0 + 32).

Section WithDriver.
Context {D : Type}.
(** The driver's entry points. *)
Variable glIsFramebuffer : GLuint → D → bool.
Variable glDeleteFramebuffers : GLuint → D → D.
Variable glGenFramebuffers : D → GLuint * D.
(** Attaching one image; the value is what [glGetError] reports next. *)
Variable glFramebufferTexture : D → GLuint → GLenum → GLenum → GLuint → Z → Z → GLenum.
Variable GL_MAX_COLOR_ATTACHMENTS : N.
(** The error reported for too many color images. *)
Variable limit_error : GLenum.

(** [static bool IsFrameBuffer(GLuint i) noexcept
     { return glIsFramebuffer(i) == GL_TRUE; }] *)
Definition IsFrameBuffer (i : GLuint) (d : D) : bool :=
  bool_decide (glIsFramebuffer i d = true).

(** [static void DeleteFrameBuffer(GLuint i) noexcept
     { glDeleteFramebuffers(1, &i); }] *)
Definition DeleteFrameBuffer (i : GLuint) (d : D) : D := glDeleteFramebuffers i d.

(** [GLuint ColorAttachments() { return this->NumberOfColorAttachments; }]:
    the [int] member converted to [GLuint]. *)
Definition ColorAttachments (this : t) : Z :=
  NumberOfColorAttachments this mod 2 ^ GLenum_bits.

(** Modelled from the spec: the attach steps of [FrameBuffer::attach]
    (defined in a file that is not among the sources), "attaches each
    supplied image at consecutive attachment slots"; it stops at the
    first step the driver reports an error for. *)
Fixpoint attach_each (d : D) (fb : GLuint) (target type : GLenum)
    (level zoffset : Z) (textures : list GLuint) : option (GLExpected.t ()) :=
  match textures with
  | [] => None
  | texture :: rest =>
      match GL_ERROR (glFramebufferTexture d fb target type texture level zoffset)
                     (Some "glFramebufferTexture") with
      | Some e => Some e
      | None => attach_each d fb target (type + 1) level zoffset rest
      end
  end.

(** Modelled from the spec: [FrameBuffer::attach] (defined in a file that
    is not among the sources).  "[image_count] must not exceed the
    driver's maximum simultaneous color attachments when
    [attachment_type] is a color type; violating this is a reported
    error"; it "updates the tracked color-attachment count". *)
Definition attach (this : t) (w : world D) (target type : GLenum)
    (level zoffset : Z) (textures : list GLuint) : GLExpected.t () * t :=
  if is_color type && (GL_MAX_COLOR_ATTACHMENTS <? N.of_nat (length textures))%N
  then ((GLExpected.of_error (GLError.make limit_error (Some "FrameBuffer::attach"))).1,
        this)
  else
    match attach_each (gl w) (Ref._ref (ref this)) target type level zoffset textures with
    | Some e => (e, this)
    | None =>
        (GLExpected.of_value (),
         Build (ref this)
               (if is_color type then Z.of_nat (length textures)
                else NumberOfColorAttachments this))
    end.

(** Modelled from the spec: [FrameBuffer::create] (defined in a file that
    is not among the sources): it "allocates one native framebuffer
    object, then attaches each supplied image"; it "fails with a driver
    error if allocation fails or if any individual attach step fails",
    and then "the framebuffer is released before returning".  The
    release is the destructor of the local handle on the early return. *)
Definition create (w : world D) (target type : GLenum) (level zoffset : Z)
    (textures : list GLuint) : outcome (GLExpected.t t * world D) :=
  let '(name, d) := glGenFramebuffers (gl w) in
  if (name =? 0)%N then
    mret ((GLExpected.of_error (GLError.make GL_OUT_OF_MEMORY (Some "glGenFramebuffers"))).1,
          World d (generated w) (deleted w))
  else
    let w1 := World d (generated w ++ [name]) (deleted w) in
    let fb := Build (Ref.of_name name) 0 in
    let '(r, fb1) := attach fb w1 target type level zoffset textures in
    let '(ok, r1) := GLExpected.has_value r in
    if ok then
      let '(new, old) := Ref.move (ref fb1) in
      let '(_, w2) := Ref.dtor IsFrameBuffer DeleteFrameBuffer old w1 in
      mret (GLExpected.of_value (Build new (NumberOfColorAttachments fb1)), w2)
    else
      '(e, _) ← GLExpected.move_convert (λ _ : (), fb1) id r1;
      let '(_, w2) := Ref.dtor IsFrameBuffer DeleteFrameBuffer (ref fb1) w1 in
      mret (e, w2).

End WithDriver.

End FrameBuffer.

(** ** A driver to run the models on

    Object names of one kind: the set of names that are live objects, how
    many names have been handed out, and how many objects the driver can
    hold.  Names are [1, 2, ...] in the order they are handed out. *)

Module Names.

Record t : Type := Build { live : gset N; handed_out : N; capacity : N }.

Definition bound (d : t) : N := N.succ (handed_out d).

Definition is_name (i : GLuint) (d : t) : bool := bool_decide (i ∈ live d).

Definition delete (i : GLuint) (d : t) : t :=
  Build (live d ∖ {[i]}) (handed_out d) (capacity d).

Definition gen (d : t) : GLuint * t :=
  if (capacity d <=? N.of_nat (size (live d)))%N then (0%N, d)
  else (bound d, Build ({[bound d]} ∪ live d) (N.succ (handed_out d)) (capacity d)).

Definition empty (capacity : N) : t := Build ∅ 0 capacity.

End Names.

(** ** ProgramObject *)

Module ProgramObject.

(** [struct ProgramObject : GLRef<IsProgramObj, DeleteProgramObj>] *)
Record t : Type := Build { ref : Ref.t }.

(** Modelled from the spec: the driver's side of a program object (the
    driver is not part of the repository), the "implicit link state
    (unlinked, has-attached-shaders, linked)": the shaders attached so
    far and whether the last link succeeded. *)
Record program : Type := Program { attached : list GLuint; linked : bool }.

Record driver : Type :=
  Driver { programs : gmap N program; handed_out : N; capacity : N; shaders : Names.t }.

Definition glIsProgram (i : GLuint) (d : driver) : bool :=
  bool_decide (is_Some (programs d !! i)).

Definition glDeleteProgram (i : GLuint) (d : driver) : driver :=
  Driver (delete i (programs d)) (handed_out d) (capacity d) (shaders d).

Definition glCreateProgram (d : driver) : GLuint * driver :=
  if (capacity d <=? N.of_nat (size (programs d)))%N then (0%N, d)
  else (N.succ (handed_out d),
        Driver (<[N.succ (handed_out d) := Program [] false]> (programs d))
               (N.succ (handed_out d)) (capacity d) (shaders d)).

Definition glDeleteShader (i : GLuint) (d : driver) : driver :=
  Driver (programs d) (handed_out d) (capacity d) (Names.delete i (shaders d)).

(** [static constexpr bool IsProgramObj(GLuint i) noexcept
     { return glIsProgram(i) == GL_TRUE; }] *)
Definition IsProgramObj (i : GLuint) (d : driver) : bool :=
  bool_decide (glIsProgram i d = true).

(** [static constexpr void DeleteProgramObj(GLuint i) noexcept
     { glDeleteProgram(i); }] *)
Definition DeleteProgramObj (i : GLuint) (d : driver) : driver := glDeleteProgram i d.

(** Modelled from the spec: the two template arguments of the shader
    object's owned handle ([struct ShaderObject] is only declared in the
    sources), "same ownership pattern". *)
Definition IsShaderObj (i : GLuint) (d : driver) : bool := Names.is_name i (shaders d).
Definition DeleteShaderObj (i : GLuint) (d : driver) : driver := glDeleteShader i d.

Section WithLinker.
(** Whether the driver takes one more shader next to those attached,
    and whether a set of attached shaders links. *)
Variable accepts : list GLuint → GLuint → bool.
Variable links : list GLuint → bool.

(** Modelled from the spec: [ProgramObject::create] (defined in a file
    that is not among the sources), it "allocates one native program
    object; fails only if the driver cannot allocate a handle". *)
Definition create (w : world driver) : GLExpected.t t * world driver :=
  let '(name, d) := glCreateProgram (gl w) in
  if (name =? 0)%N then
    ((GLExpected.of_error (GLError.make GL_OUT_OF_MEMORY (Some "glCreateProgram"))).1,
     World d (generated w) (deleted w))
  else
    (GLExpected.of_value (Build (Ref.of_name name)),
     World d (generated w ++ [name]) (deleted w)).

(** Modelled from the spec: [ProgramObject::is_valid] (declared in the
    header, defined in a file that is not among the sources), it "reports
    handle validity (not link success)". *)
Definition is_valid (this : t) (w : world driver) : bool :=
  Ref.is_valid IsProgramObj (ref this) w.

Definition set_program (name : GLuint) (p : program) (w : world driver) : world driver :=
  World (Driver (<[name := p]> (programs (gl w))) (handed_out (gl w))
                (capacity (gl w)) (shaders (gl w)))
        (generated w) (deleted w).

(** Modelled from the spec: [ProgramObject::attach] (defined in a file
    that is not among the sources), it "consumes the shader object by
    value"; it "fails if the program or shader handle is invalid, or if
    the driver rejects the stage combination", and a failure "leaves the
    program's attachment state unchanged".  The shader handle, a
    parameter passed by value, is destroyed on return. *)
Definition attach (this : t) (shader : Ref.t) (w : world driver)
    : GLExpected.t () * world driver :=
  let name := Ref._ref (ref this) in
  let '(r, w1) :=
    match programs (gl w) !! name with
    | Some p =>
        if is_valid this w && Ref.is_valid IsShaderObj shader w then
          if accepts (attached p) (Ref._ref shader) then
            (GLExpected.of_value (),
             set_program name (Program (attached p ++ [Ref._ref shader]) (linked p)) w)
          else
            ((GLExpected.of_error
                (GLError.make GL_INVALID_OPERATION (Some "glAttachShader"))).1, w)
        else
          ((GLExpected.of_error (GLError.make GL_INVALID_VALUE (Some "glAttachShader"))).1, w)
    | None =>
        ((GLExpected.of_error (GLError.make GL_INVALID_VALUE (Some "glAttachShader"))).1, w)
    end in
  (r, (Ref.dtor IsShaderObj DeleteShaderObj shader w1).2).

(** Modelled from the spec: [ProgramObject::link] (defined in a file that
    is not among the sources), it "requests the driver to link all
    currently attached stages"; "[link()] without any prior [attach()]
    call returns an error Result"; "on failure the program remains a
    valid (destructible) handle but is flagged unusable for drawing". *)
Definition link (this : t) (w : world driver) : GLExpected.t () * world driver :=
  let name := Ref._ref (ref this) in
  match programs (gl w) !! name with
  | Some p =>
      match attached p with
      | [] =>
          ((GLExpected.of_error
              (GLError.make GL_INVALID_OPERATION (Some "glLinkProgram"))).1,
           set_program name (Program [] false) w)
      | _ :: _ =>
          if links (attached p) then
            (GLExpected.of_value (), set_program name (Program (attached p) true) w)
          else
            ((GLExpected.of_error
                (GLError.make GL_INVALID_OPERATION (Some "glLinkProgram"))).1,
             set_program name (Program (attached p) false) w)
      end
  | None =>
      ((GLExpected.of_error (GLError.make GL_INVALID_VALUE (Some "glLinkProgram"))).1, w)
  end.

(** Whether the program can be drawn with: it is a live program whose
    last link succeeded. *)
Definition usable (this : t) (w : world driver) : bool :=
  match programs (gl w) !! Ref._ref (ref this) with
  | Some p => linked p
  | None => false
  end.

(** A run of [attach] calls, with the Result of each. *)
Fixpoint attach_all (this : t) (shaders : list Ref.t) (w : world driver)
    : list (GLExpected.t ()) * world driver :=
  match shaders with
  | [] => ([], w)
  | shader :: rest =>
      let '(r, w1) := attach this shader w in
      let '(rs, w2) := attach_all this rest w1 in
      (r :: rs, w2)
  end.

End WithLinker.

End ProgramObject.

(** ** Ownership, read off a scope *)

Module Ownership.

(** The resource a handle slot owns: the id it wraps, unless it is null
    or the handle's lifetime has ended. *)
Definition own (h : option Ref.t) : list GLuint :=
  match h with
  | Some r => if (Ref._ref r =? 0)%N then [] else [Ref._ref r]
  | None => []
  end.

Definition owners (hs : list (option Ref.t)) : list GLuint := hs ≫= own.

(** What an operation overwrites: the resource the target of a move
    assignment owns when it is assigned to. *)
Definition overwritten {D : Type} (o : Scope.op) (s : Scope.t D) : list GLuint :=
  match o with
  | Scope.MoveAssign dst _ => own (Scope.alive (Scope.handles s) dst)
  | _ => []
  end.

Section WithResource.
Context {D : Type}.
Variable IS_VALID : GLuint → D → bool.
Variable DELETE : GLuint → D → D.
Variable GEN : D → GLuint * D.
Variable bound : D → N.

(** Everything the operations of a run overwrite, in order. *)
Fixpoint lost_in (ops : list Scope.op) (s : Scope.t D) : list GLuint :=
  match ops with
  | [] => []
  | o :: ops =>
      match Scope.step IS_VALID DELETE GEN o s with
      | Some s1 => overwritten o s ++ lost_in ops s1
      | None => []
      end
  end.

(** Every name the allocation call has handed out is owned by exactly one
    live handle, or has been released exactly once, or is one of the names
    [lost] that were overwritten; and what is owned is a live object. *)
Record invariant (lost : list GLuint) (s : Scope.t D) : Prop := Invariant {
  inv_account :
    owners (Scope.handles s) ++ deleted (Scope.w s) ++ lost ≡ₚ generated (Scope.w s);
  inv_nodup : NoDup (generated (Scope.w s));
  inv_valid :
    ∀ i, i ∈ owners (Scope.handles s) → IS_VALID i (gl (Scope.w s)) = true;
  inv_bound :
    ∀ i, i ∈ generated (Scope.w s) → (i < bound (gl (Scope.w s)))%N;
}.

End WithResource.

End Ownership.

(** How many times the release function has been called on the name [i]. *)
Definition release_calls {D : Type} (i : GLuint) (w : world D) : nat :=
  length (filter (λ j, j = i) (deleted w)).

(** ** The void specialization of GLExpected

    [template<class T> requires std::is_void_v<T> class GLExpected<T>] keeps
    one member, [GLError _error].  The members embedded here are the ones
    that are well-formed as written; the two constructors that name a base
    class [GLError], [error()] and [take()] are not. *)

Module GLExpected_void.

Record t : Type := Build { _error : GLError.t }.

(** [constexpr GLExpected() noexcept {}] and
    [constexpr explicit GLExpected(std::in_place_t) noexcept {}]: the member
    is default-constructed. *)
Definition default : t := Build GLError.default.

(** [constexpr ~GLExpected() {}]: the member is destroyed. *)
Definition dtor (NDEBUG : bool) (x : t) : outcome unit :=
  GLError.dtor NDEBUG (_error x).

(** [operator=(GLExpected&& right) { _error = std::move(right._error); ... }] *)
Definition assign (NDEBUG : bool) (this right : t) : outcome (t * t) :=
  '(e, r) ← GLError.assign NDEBUG (_error this) (_error right);
  mret (Build e, Build r).

(** [operator=(GLError&& right) { _error = std::move(right); ... }] *)
Definition assign_error (NDEBUG : bool) (this : t) (right : GLError.t)
    : outcome (t * GLError.t) :=
  '(e, r) ← GLError.assign NDEBUG (_error this) right;
  mret (Build e, r).

(** [bool has_error() noexcept { return _error.has_error(); }] *)
Definition has_error (x : t) : bool * t :=
  let '(b, e) := GLError.has_error (_error x) in (b, Build e).

(** [bool has_value() noexcept { return !has_error(); }] and
    [explicit operator bool()]. *)
Definition has_value (x : t) : bool * t :=
  let '(b, x1) := has_error x in (negb b, x1).

(** [bool peek() const noexcept { return _error.peek(); }] *)
Definition peek (x : t) : bool := GLError.peek (_error x).

End GLExpected_void.

(** ** The test program: the behavior function of the mock element

    [FG_Msg], [FG_Result] and the enumerations are declared in headers that
    are not among the sources: a message is its kind with the fields the
    function reads, and the two enumerators it compares against are taken
    as they come. *)

Module CppTest.

Inductive FG_Msg : Type :=
  | FG_Kind_DRAW
  | FG_Kind_GETWINDOWFLAGS
  | FG_Kind_SETWINDOWFLAGS (flags : Z)
  | FG_Kind_KEYDOWN (key : Z) (scancode : Z)
  | FG_Kind_MOUSEDOWN
  | FG_Kind_other.

#[global] Instance FG_Msg_eq_dec : EqDecision FG_Msg.
Proof. solve_decision. Defined.

(** [struct MockElement] *)
Record MockElement : Type := Build {
  image : N; shader : N; vertices : N; pipeline : N; flags : Z; close : bool }.

(** The calls the function makes through the backend's table. *)
Inductive backend_call : Type :=
  | beginDraw | createCommandList | execute | destroyCommandList.

Section WithEnumerators.
Variable FG_Keys_LMENU : Z.
Variable FG_WindowFlag_CLOSED : Z.

(** [FG_Result behavior(FG_Element* element, FG_Context* w, void* ui, FG_Msg* m)]:
    the result, the element afterwards and the backend calls made. *)
Definition behavior (e : MockElement) (m : FG_Msg) : Z * MockElement * list backend_call :=
  match m with
  | FG_Kind_DRAW =>
      (0, e, [beginDraw; createCommandList; execute; destroyCommandList])
  | FG_Kind_GETWINDOWFLAGS =>
      (if close e then FG_WindowFlag_CLOSED else 0, e, [])
  | _ =>
      let e1 :=
        match m with
        | FG_Kind_SETWINDOWFLAGS f =>
            Build (image e) (shader e) (vertices e) (pipeline e) (flags e)
                  (close e || negb (Z.land f FG_WindowFlag_CLOSED =? 0))
        | _ => e
        end in
      let e2 :=
        if match m with
           | FG_Kind_KEYDOWN key scancode =>
               negb (key =? FG_Keys_LMENU) && negb (scancode =? 84)
               && negb (scancode =? 88)
           | FG_Kind_MOUSEDOWN => true
           | _ => false
           end
        then Build (image e1) (shader e1) (vertices e1) (pipeline e1) (flags e1) true
        else e1 in
      (-1, e2, [])
  end.

(** The element after a run of messages, with every backend call made. *)
Fixpoint deliver (e : MockElement) (ms : list FG_Msg) : MockElement * list backend_call :=
  match ms with
  | [] => (e, [])
  | m :: ms =>
      let '(_, e1, calls) := behavior e m in
      let '(e2, calls') := deliver e1 ms in
      (e2, calls ++ calls')
  end.

End WithEnumerators.

End CppTest.

(* ================================================================== *)
(** * Properties *)
(* ================================================================== *)

(** ** Bit-level facts about the two reserved words *)

Lemma UNCHECKED_FLAG_eq : UNCHECKED_FLAG = 2 ^ 31.
Proof. reflexivity. Qed.

Lemma lnot32_UNCHECKED_FLAG : lnot32 UNCHECKED_FLAG = Z.ones 31.
Proof. reflexivity. Qed.

Lemma land_flag_testbit (e : Z) :
  Z.land e UNCHECKED_FLAG = if Z.testbit e 31 then 2 ^ 31 else 0.
Proof.
  rewrite UNCHECKED_FLAG_eq. apply Z.bits_inj'. intros n Hn.
  rewrite Z.land_spec, Z.pow2_bits_eqb by lia.
  destruct (Z.eqb_spec 31 n) as [<-|Hne].
  - rewrite andb_true_r. destruct (Z.testbit e 31); [|done].
    by rewrite Z.pow2_bits_true.
  - rewrite andb_false_r. destruct (Z.testbit e 31); [|by rewrite Z.bits_0].
    by rewrite Z.pow2_bits_false.
Qed.

Lemma flag_set_iff (e : Z) :
  (Z.land e UNCHECKED_FLAG =? 0) = negb (Z.testbit e 31).
Proof. rewrite land_flag_testbit. by destruct (Z.testbit e 31). Qed.

Lemma testbit_lor_flag (e : Z) : Z.testbit (Z.lor e UNCHECKED_FLAG) 31 = true.
Proof.
  rewrite Z.lor_spec, UNCHECKED_FLAG_eq, Z.pow2_bits_true by lia.
  apply orb_true_r.
Qed.

Lemma testbit_clean (e : Z) :
  Z.testbit (Z.land e (lnot32 UNCHECKED_FLAG)) 31 = false.
Proof.
  rewrite lnot32_UNCHECKED_FLAG, Z.land_spec, Z.ones_spec_high by lia.
  apply andb_false_r.
Qed.

Lemma testbit_INVALID_ERROR : Z.testbit INVALID_ERROR 31 = false.
Proof. reflexivity. Qed.

Lemma clean_idem (e : Z) :
  Z.land (Z.land e (lnot32 UNCHECKED_FLAG)) (lnot32 UNCHECKED_FLAG)
  = Z.land e (lnot32 UNCHECKED_FLAG).
Proof. by rewrite <- Z.land_assoc, Z.land_diag. Qed.

Lemma clean_lor_flag (e : Z) :
  Z.land (Z.lor e UNCHECKED_FLAG) (lnot32 UNCHECKED_FLAG)
  = Z.land e (lnot32 UNCHECKED_FLAG).
Proof.
  rewrite Z.land_lor_distr_l.
  replace (Z.land UNCHECKED_FLAG (lnot32 UNCHECKED_FLAG)) with 0 by reflexivity.
  apply Z.lor_0_r.
Qed.

Lemma lor_flag_not_INVALID (e : Z) : (Z.lor e UNCHECKED_FLAG =? INVALID_ERROR) = false.
Proof.
  apply Z.eqb_neq. intros H.
  pose proof (testbit_lor_flag e) as Hb. rewrite H in Hb. discriminate.
Qed.

(** ** GLExpected: observers in the error state *)

Section GLExpectedFacts.
Context {T : Type}.
Implicit Types (x : GLExpected.t T) (c : option string) (v : T).

Lemma value_when_not_peek NDEBUG x :
  GLExpected.peek x = false →
  GLExpected.value NDEBUG x
  = if NDEBUG then GLExpected._result x else AssertionFailed.
Proof.
  intros Hp. unfold GLExpected.value, assert_. rewrite Hp, orb_false_r.
  by destruct NDEBUG.
Qed.

Lemma value_when_peek NDEBUG x :
  GLExpected.peek x = true →
  GLExpected.value NDEBUG x = GLExpected._result x.
Proof.
  intros Hp. unfold GLExpected.value, assert_. by rewrite Hp, orb_true_r.
Qed.

Lemma peek_checked x :
  GLExpected.peek (GLExpected._checked x) = GLExpected.peek x.
Proof. unfold GLExpected.peek, GLExpected._checked. simpl. by rewrite clean_idem. Qed.

Lemma has_error_true_not_peek x :
  (GLExpected.has_error x).1 = true →
  GLExpected.peek (GLExpected.has_error x).2 = false.
Proof.
  unfold GLExpected.has_error, GLExpected.has_value. simpl.
  intros [H _]%andb_prop. by apply negb_true_iff in H.
Qed.

Lemma dtor_flagged NDEBUG x :
  (GLExpected._error x =? INVALID_ERROR) = false →
  GLExpected.dtor NDEBUG x
  = (_ ← (if GLExpected.peek x then _ ← GLExpected._result x; mret () else mret ());
     assert_ NDEBUG (negb (Z.testbit (GLExpected._error x) 31))).
Proof. intros H. unfold GLExpected.dtor. by rewrite H, flag_set_iff. Qed.

Lemma unchecked_testbit x :
  GLExpected.unchecked x ↔ Z.testbit (GLExpected._error x) 31 = true.
Proof.
  unfold GLExpected.unchecked. rewrite land_flag_testbit.
  destruct (Z.testbit _ 31); split; intros; try done; lia.
Qed.

End GLExpectedFacts.

(** C8.  In the holds-error state [value()] and [operator*] stop in the
    assertion [assert(peek())] (assertions live), so neither returns a
    payload; this is still so for the object that [has_error()] has just
    reported [true] on. *)
Theorem value_asserts_in_error_state {T} (x : GLExpected.t T) (c : option string) :
  GLExpected.holds_error x c →
  GLExpected.value false x = AssertionFailed
  ∧ GLExpected.deref false x = AssertionFailed
  ∧ (∀ v, GLExpected.value false x ≠ Done v ∧ GLExpected.deref false x ≠ Done v)
  ∧ ((GLExpected.has_error x).1 = true →
       GLExpected.value false (GLExpected.has_error x).2 = AssertionFailed
       ∧ GLExpected.deref false (GLExpected.has_error x).2 = AssertionFailed).
Proof.
  intros (Hp & _ & _).
  assert (Hv : GLExpected.value false x = AssertionFailed)
    by (by rewrite value_when_not_peek).
  unfold GLExpected.deref. rewrite Hv.
  split; [done|]. split; [done|]. split; [by intros v|].
  intros Hh%has_error_true_not_peek. by rewrite value_when_not_peek.
Qed.

Lemma value_asserts_in_error_state_witness :
  let x : GLExpected.t Z :=
    (GLExpected.of_error (GLError.make GL_INVALID_OPERATION (Some "glLinkProgram"))).1 in
  (GLExpected.has_error x).1 = true
  ∧ GLExpected.value false x = AssertionFailed
  ∧ GLExpected.value false (GLExpected.has_error x).2 = AssertionFailed.
Proof.
  intros x.
  assert (H : GLExpected.holds_error x None).
  { repeat split. vm_compute. discriminate. }
  destruct (value_asserts_in_error_state x None H) as (Hv & _ & _ & Hh).
  split; [reflexivity|]. split; [exact Hv|]. apply Hh. reflexivity.
Defined.

(** ** GLExpected::take *)

Lemma grab_error {T} (x : GLExpected.t T) c :
  GLExpected.holds_error x c →
  GLExpected._grab x = Done (GLError.in_place (GLExpected._error x) c).
Proof.
  intros (Hp & _ & Hu). unfold GLExpected._grab, GLExpected._context.
  by rewrite Hp, Hu.
Qed.

Lemma take_error {T} NDEBUG (x : GLExpected.t T) c :
  GLExpected.holds_error x c →
  GLExpected.take NDEBUG x
  = Done (GLError.in_place (GLExpected._error x) c,
          GLExpected.Build INVALID_ERROR (GLExpected.context_member None)).
Proof.
  intros H. pose proof (grab_error x c H) as Hg. destruct H as (Hp & Hi & Hu).
  unfold GLExpected.take, assert_.
  apply Z.eqb_neq in Hi. rewrite Hi, orb_true_r. simpl.
  by rewrite Hg, Hp.
Qed.

Lemma take_consumed {T} NDEBUG :
  GLExpected.take NDEBUG
    (GLExpected.Build (T:=T) INVALID_ERROR (GLExpected.context_member None))
  = if NDEBUG
    then Done (GLError.in_place INVALID_ERROR None,
               GLExpected.Build INVALID_ERROR (GLExpected.context_member None))
    else AssertionFailed.
Proof. by destruct NDEBUG. Qed.

(** C2, as the code has it.  On a Result that holds an error, [take()]
    returns a GLError with the Result's error word and context and leaves
    the Result in the consumed state ([INVALID_ERROR], null context),
    whether or not assertions are live.  A second [take()] on that Result
    stops in [assert(_error != GLError::INVALID_ERROR)] when assertions
    are live; with assertions compiled out it returns a GLError holding
    [INVALID_ERROR] with a null context and the Result stays consumed. *)
Theorem take_error_then_consumed {T} (x : GLExpected.t T) (c : option string) :
  GLExpected.holds_error x c →
  ∃ x1 : GLExpected.t T,
    (∀ NDEBUG, GLExpected.take NDEBUG x
               = Done (GLError.in_place (GLExpected._error x) c, x1))
    ∧ GLExpected.consumed x1
    ∧ GLExpected.take false x1 = AssertionFailed
    ∧ GLExpected.take true x1 = Done (GLError.in_place INVALID_ERROR None, x1).
Proof.
  intros H. eexists. split; [intros NDEBUG; by apply take_error|].
  split; [reflexivity|].
  split; [exact (take_consumed false)|exact (take_consumed true)].
Qed.

Lemma take_error_then_consumed_witness :
  ∃ x1 : GLExpected.t Z,
    (∀ NDEBUG,
       GLExpected.take NDEBUG
         (GLExpected.of_error (GLError.make GL_INVALID_OPERATION (Some "glLinkProgram"))).1
       = Done (GLError.in_place (Z.lor GL_INVALID_OPERATION UNCHECKED_FLAG) None, x1))
    ∧ GLExpected.consumed x1
    ∧ GLExpected.take false x1 = AssertionFailed
    ∧ GLExpected.take true x1 = Done (GLError.in_place INVALID_ERROR None, x1).
Proof.
  apply (take_error_then_consumed
           (GLExpected.of_error (GLError.make GL_INVALID_OPERATION (Some "glLinkProgram"))).1
           None).
  repeat split. vm_compute. discriminate.
Defined.

(** C2 as stated fails with assertions live: after the first [take()],
    the second one does not return at all. *)
Lemma second_take_asserts :
  let x : GLExpected.t Z :=
    (GLExpected.of_error (GLError.make GL_INVALID_OPERATION (Some "glLinkProgram"))).1 in
  let x1 : GLExpected.t Z := GLExpected.Build INVALID_ERROR (GLExpected.context_member None) in
  GLExpected.take false x
  = Done (GLError.in_place (Z.lor GL_INVALID_OPERATION UNCHECKED_FLAG) None, x1)
  ∧ GLExpected.take false x1 = AssertionFailed.
Proof. split; reflexivity. Qed.

(** ** Construction from a GLError *)

Lemma of_error_make {T} (err : GLenum) (ctx : option string) :
  GLExpected.of_error (T:=T) (GLError.make err ctx)
  = (GLExpected.Build (Z.lor err UNCHECKED_FLAG) (GLExpected.context_member None),
     GLError.Build GL_NO_ERROR None).
Proof.
  unfold GLExpected.of_error, GLError.take, GLError.make. simpl.
  by rewrite !lor_flag_not_INVALID.
Qed.

(** C4, evaluated.  [GLError::take] builds its pair after [_context] has
    been set to [nullptr], so the GLExpected built from a GLError keeps the
    error word and loses the context text. *)
Theorem of_error_loses_context :
  GLExpected.of_error (T:=Z) (GLError.make GL_INVALID_ENUM (Some "glBindTexture"))
  = (GLExpected.Build (Z.lor GL_INVALID_ENUM UNCHECKED_FLAG) (GLExpected.context_member None),
     GLError.Build GL_NO_ERROR None)
  ∧ GLError._context (GLError.make GL_INVALID_ENUM (Some "glBindTexture"))
    = Some "glBindTexture"
  ∧ GLExpected._grab
      (GLExpected.of_error (T:=Z) (GLError.make GL_INVALID_ENUM (Some "glBindTexture"))).1
    = Done (GLError.in_place (Z.lor GL_INVALID_ENUM UNCHECKED_FLAG) None).
Proof. repeat split. Qed.

(** ** Destruction and the UNCHECKED flag *)

Lemma dtor_of_value {T} NDEBUG (v : T) :
  GLExpected.dtor NDEBUG (GLExpected.of_value v)
  = if NDEBUG then Done () else AssertionFailed.
Proof. by destruct NDEBUG. Qed.

Lemma dtor_checked_value {T} NDEBUG (v : T) :
  GLExpected.dtor NDEBUG (GLExpected.has_value (GLExpected.of_value v)).2 = Done ().
Proof. by destruct NDEBUG. Qed.

Lemma dtor_unchecked_error {T} (x : GLExpected.t T) c :
  GLExpected.holds_error x c → GLExpected.unchecked x →
  GLExpected.dtor false x = AssertionFailed.
Proof.
  intros (Hp & Hi & _) Hu. rewrite dtor_flagged by by apply Z.eqb_neq.
  apply unchecked_testbit in Hu. by rewrite Hp, Hu.
Qed.

Lemma dtor_checked_error {T} NDEBUG (x : GLExpected.t T) c :
  GLExpected.holds_error x c →
  GLExpected.dtor NDEBUG (GLExpected.has_error x).2 = Done ().
Proof.
  intros (Hp & _ & _).
  change (GLExpected.has_error x).2 with (GLExpected._checked x).
  unfold GLExpected.dtor.
  destruct (GLExpected._error (GLExpected._checked x) =? INVALID_ERROR); [done|].
  cbn [negb]. rewrite peek_checked, Hp, flag_set_iff.
  unfold GLExpected._checked. cbn [GLExpected._error].
  rewrite testbit_clean. unfold assert_. by rewrite orb_true_r.
Qed.

Lemma of_error_make_holds_error {T} err ctx :
  error_code err →
  GLExpected.holds_error (GLExpected.of_error (T:=T) (GLError.make err ctx)).1 None
  ∧ GLExpected.unchecked (GLExpected.of_error (T:=T) (GLError.make err ctx)).1.
Proof.
  intros [Hn _]. rewrite of_error_make. simpl. split.
  - split; [|split; [|done]].
    + unfold GLExpected.peek. simpl. rewrite clean_lor_flag. by apply Z.eqb_neq.
    + simpl. apply Z.eqb_neq, lor_flag_not_INVALID.
  - apply unchecked_testbit. simpl. apply testbit_lor_flag.
Qed.

(** C3, as the code has it.  With assertions live, destroying a
    never-inspected Result built from an (unchecked) GLError that carries
    an error code stops in the destructor's assertion.  A Result built from
    a value is marked UNCHECKED too, so destroying it without inspecting it
    stops in the same assertion.  Either one is destroyed quietly once
    [has_error()] / [has_value()] has been called on it, and nothing is
    asserted when assertions are compiled out. *)
Theorem dtor_asserts_while_unchecked {T} (err : GLenum) (ctx : option string) (v : T) :
  error_code err →
  GLExpected.dtor false (GLExpected.of_error (T:=T) (GLError.make err ctx)).1
  = AssertionFailed
  ∧ GLExpected.dtor false (GLExpected.of_value v) = AssertionFailed
  ∧ GLExpected.dtor false
      (GLExpected.has_error (GLExpected.of_error (T:=T) (GLError.make err ctx)).1).2
    = Done ()
  ∧ GLExpected.dtor false (GLExpected.has_value (GLExpected.of_value v)).2 = Done ()
  ∧ GLExpected.dtor true (GLExpected.of_value v) = Done ().
Proof.
  intros He.
  destruct (of_error_make_holds_error (T:=T) err ctx He) as [Hh Hu].
  split; [by eapply dtor_unchecked_error|].
  split; [exact (dtor_of_value false v)|].
  split; [by eapply dtor_checked_error|].
  split; [apply dtor_checked_value|exact (dtor_of_value true v)].
Qed.

Lemma dtor_asserts_while_unchecked_witness :
  GLExpected.dtor false
    (GLExpected.of_error (T:=Z) (GLError.make GL_OUT_OF_MEMORY (Some "glGenFramebuffers"))).1
  = AssertionFailed
  ∧ GLExpected.dtor false (GLExpected.of_value 42) = AssertionFailed
  ∧ GLExpected.dtor false
      (GLExpected.has_error
         (GLExpected.of_error (T:=Z) (GLError.make GL_OUT_OF_MEMORY (Some "glGenFramebuffers"))).1).2
    = Done ()
  ∧ GLExpected.dtor false (GLExpected.has_value (GLExpected.of_value 42)).2 = Done ()
  ∧ GLExpected.dtor true (GLExpected.of_value 42) = Done ().
Proof.
  apply (dtor_asserts_while_unchecked GL_OUT_OF_MEMORY (Some "glGenFramebuffers") 42).
  split; vm_compute; discriminate.
Defined.

(** C3 as stated fails: a Result constructed from a value and never
    inspected does trip the destructor's assertion. *)
Lemma dtor_of_unchecked_value_asserts :
  GLExpected.of_value 42 = GLExpected.Build UNCHECKED_FLAG (GLExpected.result_member 42)
  ∧ GLExpected.dtor false (GLExpected.of_value 42) = AssertionFailed.
Proof. split; reflexivity. Qed.

(** ** value_or *)

Lemma value_or_rvalue_error_word {T} mv (x : GLExpected.t T) (right : T) r x' :
  GLExpected.value_or_rvalue mv x right = Done (r, x') →
  GLExpected._error x' = GLExpected._error x.
Proof.
  unfold GLExpected.value_or_rvalue, GLExpected._result.
  destruct (GLExpected.peek x); [destruct (GLExpected._union x)|]; simpl;
    intros [= <- <-]; done.
Qed.

(** C9, as the code has it.  [value_or] has no assertion in it; on a Result
    that holds a value it returns that value and otherwise the fallback.
    It does not count as a check: neither overload writes [_error], so a
    Result that was unchecked is still unchecked afterwards and its
    destructor (assertions live) still stops in the assertion. *)
Theorem value_or_never_asserts_never_checks {T} (mv : T → T)
    (x : GLExpected.t T) (fallback : T) :
  (GLExpected.value_or x fallback = AssertionFailed → False)
  ∧ (GLExpected.value_or_rvalue mv x fallback = AssertionFailed → False)
  ∧ (∀ v, GLExpected.holds_value x v →
       GLExpected.value_or x fallback = Done v
       ∧ GLExpected.value_or_rvalue mv x fallback
         = Done (v, GLExpected.Build (GLExpected._error x) (GLExpected.result_member (mv v))))
  ∧ (GLExpected.peek x = false →
       GLExpected.value_or x fallback = Done fallback
       ∧ GLExpected.value_or_rvalue mv x fallback = Done (fallback, x))
  ∧ (∀ r x', GLExpected.value_or_rvalue mv x fallback = Done (r, x') →
       GLExpected._error x' = GLExpected._error x
       ∧ (GLExpected.unchecked x → GLExpected.unchecked x'))
  ∧ (∀ c, GLExpected.holds_error x c → GLExpected.unchecked x →
       GLExpected.dtor false x = AssertionFailed).
Proof.
  unfold GLExpected.value_or, GLExpected.value_or_rvalue, GLExpected._result.
  repeat split.
  - destruct (GLExpected.peek x); [destruct (GLExpected._union x)|]; done.
  - destruct (GLExpected.peek x); [destruct (GLExpected._union x)|]; done.
  - destruct H as [-> ->]. done.
  - destruct H as [-> ->]. done.
  - by rewrite H.
  - by rewrite H.
  - by eapply (value_or_rvalue_error_word mv).
  - intros Hu. unfold GLExpected.unchecked.
    by rewrite (value_or_rvalue_error_word mv x fallback r x' H).
  - intros. by eapply dtor_unchecked_error.
Qed.

(** C9 as stated fails: after [value_or] the Result is as unchecked as
    before, and destroying it stops in the assertion. *)
Lemma value_or_is_not_a_check :
  GLExpected.value_or (GLExpected.of_value 42) 7 = Done 42
  ∧ GLExpected.dtor false (GLExpected.of_value 42) = AssertionFailed
  ∧ GLExpected.value_or_rvalue id (GLExpected.of_value 42) 7
    = Done (42, GLExpected.of_value 42)
  ∧ GLExpected.value_or
      (GLExpected.of_error (GLError.make GL_INVALID_VALUE (Some "glTexImage2D"))).1 7
    = Done 7
  ∧ GLExpected.dtor false
      (GLExpected.of_error (T:=Z) (GLError.make GL_INVALID_VALUE (Some "glTexImage2D"))).1
    = AssertionFailed.
Proof. repeat split. Qed.

Lemma value_or_never_asserts_never_checks_witness :
  GLExpected.value_or (GLExpected.of_value 42) 7 = Done 42
  ∧ GLExpected.value_or_rvalue (λ _, 0) (GLExpected.of_value 42) 7
    = Done (42, GLExpected.Build UNCHECKED_FLAG (GLExpected.result_member 0))
  ∧ GLExpected.unchecked (GLExpected.Build UNCHECKED_FLAG (GLExpected.result_member 0)).
Proof.
  destruct (value_or_never_asserts_never_checks (λ _, 0) (GLExpected.of_value 42) 7)
    as (_ & _ & Hv & _ & Hr & _).
  destruct (Hv 42) as [H1 H2]; [split; reflexivity|].
  split; [exact H1|]. split; [exact H2|].
  apply (Hr _ _ H2). vm_compute. discriminate.
Defined.

(** ** Moving a GLExpected *)

Lemma move_value {T} (mv : T → T) (x : GLExpected.t T) v :
  GLExpected.holds_value x v →
  GLExpected.move mv x
  = Done (GLExpected.Build (GLExpected._error x) (GLExpected.result_member v),
          GLExpected.Build (GLExpected._error x) (GLExpected.result_member (mv v))).
Proof.
  intros [Hp Hu]. unfold GLExpected.move, GLExpected._result.
  assert (Hi : (GLExpected._error x =? INVALID_ERROR) = false).
  { apply Z.eqb_neq. intros E. unfold GLExpected.peek in Hp. rewrite E in Hp.
    discriminate. }
  rewrite Hi. change (GLExpected.peek (GLExpected.Build _ _)) with (GLExpected.peek x).
  by rewrite Hp, Hu.
Qed.

Lemma move_error {T} (mv : T → T) (x : GLExpected.t T) c :
  GLExpected.holds_error x c →
  GLExpected.move mv x
  = Done (GLExpected.Build (GLExpected._error x) (GLExpected.context_member c),
          GLExpected.Build INVALID_ERROR (GLExpected.context_member None)).
Proof.
  intros (Hp & Hi & Hu). unfold GLExpected.move, GLExpected._context.
  apply Z.eqb_neq in Hi. rewrite Hi.
  change (GLExpected.peek (GLExpected.Build _ _)) with (GLExpected.peek x).
  by rewrite Hp, Hu.
Qed.

(** C10.  Moving out of a GLExpected that holds a value, by the move
    constructor or by move assignment (onto a target whose own destructor
    passes), gives the new object the value and the same error word, and
    leaves the source with its error word untouched: the source is not
    consumed, still reports holds-value, and if it was unchecked it still
    is, so destroying it with assertions live stops in the assertion.
    Only a source that holds an error is set to [INVALID_ERROR]. *)
Theorem move_leaves_value_source_unconsumed {T} (mv : T → T) (NDEBUG : bool)
    (x : GLExpected.t T) (v : T) :
  GLExpected.holds_value x v →
  ∃ new src : GLExpected.t T,
    GLExpected.move mv x = Done (new, src)
    ∧ (∀ this, GLExpected.dtor NDEBUG this = Done () →
         GLExpected.assign mv NDEBUG this x = Done (new, src))
    ∧ GLExpected.holds_value new v
    ∧ GLExpected._error src = GLExpected._error x
    ∧ GLExpected._error src ≠ INVALID_ERROR
    ∧ GLExpected.holds_value src (mv v)
    ∧ (GLExpected.has_value src).1 = true
    ∧ (GLExpected.unchecked x →
         GLExpected.unchecked src ∧ GLExpected.dtor false src = AssertionFailed)
    ∧ (∀ (y : GLExpected.t T) c, GLExpected.holds_error y c →
         ∃ new' src', GLExpected.move mv y = Done (new', src')
                      ∧ GLExpected.holds_error new' c
                      ∧ GLExpected.consumed src').
Proof.
  intros H. pose proof (move_value mv x v H) as Hm. destruct H as [Hp Hu].
  do 2 eexists. split; [exact Hm|].
  split; [intros this Hd; unfold GLExpected.assign; by rewrite Hd|].
  split; [by split|]. split; [done|].
  assert (Hi : GLExpected._error x ≠ INVALID_ERROR).
  { intros E. unfold GLExpected.peek in Hp. rewrite E in Hp. discriminate. }
  split; [done|]. split; [by split|].
  split.
  { unfold GLExpected.has_value. cbn [fst]. rewrite peek_checked. exact Hp. }
  split.
  { intros Hx. split; [exact Hx|].
    rewrite dtor_flagged by (by apply Z.eqb_neq).
    change (GLExpected.peek (GLExpected.Build _ _)) with (GLExpected.peek x).
    apply unchecked_testbit in Hx. cbn [GLExpected._error]. by rewrite Hp, Hx. }
  intros y c Hy. pose proof (move_error mv y c Hy) as Hmy.
  destruct Hy as (Hyp & Hyi & Hyu).
  do 2 eexists. split; [exact Hmy|]. split; [|reflexivity].
  by repeat split.
Qed.

Lemma move_leaves_value_source_unconsumed_witness :
  ∃ new src : GLExpected.t Z,
    GLExpected.move id (GLExpected.of_value 42) = Done (new, src)
    ∧ GLExpected._error src = UNCHECKED_FLAG
    ∧ (GLExpected.has_value src).1 = true
    ∧ GLExpected.dtor false src = AssertionFailed.
Proof.
  destruct (move_leaves_value_source_unconsumed id false (GLExpected.of_value 42) 42)
    as (new & src & Hm & _ & _ & He & _ & _ & Hv & Hu & _); [split; reflexivity|].
  exists new, src. split; [exact Hm|]. split; [exact He|]. split; [exact Hv|].
  apply Hu. vm_compute. discriminate.
Defined.

Lemma consumed_not_peek {T} (x : GLExpected.t T) :
  GLExpected.consumed x → GLExpected.peek x = false.
Proof. intros E. unfold GLExpected.peek. by rewrite E. Qed.

(** ** Owned handles: how often a resource is released *)

Section OwnershipFacts.
Import Ownership.

Lemma own_null : own (Some (Ref.Build 0%N)) = [].
Proof. reflexivity. Qed.

Lemma own_eta (r : Ref.t) : own (Some (Ref.Build (Ref._ref r))) = own (Some r).
Proof. by destruct r. Qed.

Lemma own_nonzero h i : i ∈ own h → i ≠ 0%N.
Proof.
  destruct h as [[r]|]; simpl; [|by intros ?%elem_of_nil].
  destruct (N.eqb_spec r 0); [by intros ?%elem_of_nil|].
  by intros ->%list_elem_of_singleton.
Qed.

Lemma owners_snoc hs h : owners (hs ++ [h]) = owners hs ++ own h.
Proof. unfold owners. rewrite bind_app. simpl. by rewrite app_nil_r. Qed.

Lemma owners_nonzero hs i : i ∈ owners hs → i ≠ 0%N.
Proof.
  unfold owners. intros (h & Hi & _)%list_elem_of_bind. by eapply own_nonzero.
Qed.

Lemma owners_lookup hs v h i : hs !! v = Some h → i ∈ own h → i ∈ owners hs.
Proof.
  intros Hv Hi. unfold owners. apply list_elem_of_bind. exists h.
  split; [done|]. by eapply list_elem_of_lookup_2.
Qed.

(** Overwriting one slot trades what the old content owned for what the
    new content owns. *)
Lemma owners_insert hs v x y :
  hs !! v = Some y →
  owners (<[v := x]> hs) ++ own y ≡ₚ owners hs ++ own x.
Proof.
  unfold owners. revert v. induction hs as [|h hs IH]; intros [|v] Hv; try done.
  - simpl in Hv. injection Hv as ->. csimpl. solve_Permutation.
  - simpl in Hv. csimpl. rewrite <- !(assoc (++)). f_equiv. by apply IH.
Qed.

Lemma owners_insert_null hs v x y :
  hs !! v = Some y → own x = [] → owners (<[v := x]> hs) ++ own y ≡ₚ owners hs.
Proof. intros Hv Hx. rewrite owners_insert by done. by rewrite Hx, app_nil_r. Qed.

Lemma owners_dead hs : (∀ v, Scope.alive hs v = None) → owners hs = [].
Proof.
  induction hs as [|h hs IH]; intros Hd; [done|].
  unfold owners. rewrite bind_cons.
  pose proof (Hd 0%nat) as H0. unfold Scope.alive in H0. simpl in H0. subst h.
  simpl. apply IH. intros v. apply (Hd (S v)).
Qed.

Lemma alive_Some hs v h : Scope.alive hs v = Some h ↔ hs !! v = Some (Some h).
Proof.
  unfold Scope.alive. destruct (hs !! v) as [[?|]|]; simpl; split; congruence.
Qed.

Lemma calls_none (i : GLuint) (l : list GLuint) :
  i ∉ l → filter (λ j, j = i) l = [].
Proof.
  induction l as [|j l IH]; [done|].
  intros [Hj Hl]%not_elem_of_cons. rewrite filter_cons.
  rewrite decide_False by congruence. by apply IH.
Qed.

Lemma calls_once (i : GLuint) (l : list GLuint) :
  NoDup l → i ∈ l → length (filter (λ j, j = i) l) = 1%nat.
Proof.
  induction 1 as [|j l Hj Hl IH]; [by intros ?%elem_of_nil|].
  rewrite filter_cons. intros [->|Hi]%elem_of_cons.
  - rewrite decide_True by done. simpl. by rewrite calls_none.
  - rewrite decide_False by (intros ->; done). by apply IH.
Qed.

End OwnershipFacts.

Section ScopeFacts.
Import Ownership.
Context {D : Type}.
Context (IS_VALID : GLuint → D → bool) (DELETE : GLuint → D → D).
Context (GEN : D → GLuint * D) (bound : D → N).
Context `{!Scope.DriverLaws IS_VALID DELETE GEN bound}.

Local Abbreviation invariant := (Ownership.invariant IS_VALID bound).
Local Abbreviation step := (Scope.step IS_VALID DELETE GEN).
Local Abbreviation dtor := (Ref.dtor IS_VALID DELETE).

(** The handles change, and what they no longer own is [extra]. *)
Lemma invariant_drop lost extra hs hs' w :
  invariant lost (Scope.Build hs w) → owners hs' ++ extra ≡ₚ owners hs →
  invariant (lost ++ extra) (Scope.Build hs' w).
Proof.
  intros [Ha Hn Hv Hb] Hp. split; simpl in *; [|done| |done].
  - rewrite <- Ha, <- Hp. solve_Permutation.
  - intros i Hi. apply Hv. rewrite <- Hp. apply elem_of_app. by left.
Qed.

Lemma invariant_perm lost hs hs' w :
  invariant lost (Scope.Build hs w) → owners hs' ≡ₚ owners hs →
  invariant lost (Scope.Build hs' w).
Proof.
  intros Hinv Hp. rewrite <- (app_nil_r lost).
  eapply invariant_drop; [exact Hinv|]. by rewrite app_nil_r.
Qed.

Lemma invariant_owners_nodup lost s :
  invariant lost s → NoDup (owners (Scope.handles s)).
Proof.
  intros [Ha Hn _ _]. rewrite <- Ha in Hn. by apply NoDup_app in Hn as [? _].
Qed.

Lemma invalid_owns_nothing lost s v h :
  invariant lost s → Scope.handles s !! v = Some (Some h) →
  Ref.is_valid IS_VALID h (Scope.w s) = false → own (Some h) = [].
Proof.
  intros Hinv Hlook Hval. unfold Ref.is_valid in Hval. simpl.
  destruct (N.eqb_spec (Ref._ref h) 0) as [|Hne]; [done|]. simpl in Hval.
  rewrite (Ownership.inv_valid _ _ _ _ Hinv) in Hval; [done|].
  eapply owners_lookup; [done|]. simpl.
  rewrite (proj2 (N.eqb_neq _ _) Hne). by apply list_elem_of_singleton.
Qed.

(** The destructor runs on the handle in slot [v], and [x], which owns
    nothing, is what the slot holds afterwards. *)
Lemma dtor_invariant lost s v h x :
  invariant lost s → Scope.handles s !! v = Some (Some h) → own x = [] →
  invariant lost
    (Scope.Build (<[v := x]> (Scope.handles s)) (dtor h (Scope.w s)).2).
Proof.
  intros Hinv Hlook Hx. unfold Ref.dtor.
  destruct (Ref.is_valid IS_VALID h (Scope.w s)) eqn:Hval; cbn [snd].
  - pose proof Hval as [Hne Hvalid]%andb_prop.
    apply negb_true_iff, N.eqb_neq in Hne.
    pose proof (owners_insert_null _ v x _ Hlook Hx) as Hp.
    assert (Ho : own (Some h) = [Ref._ref h]).
    { simpl. by rewrite (proj2 (N.eqb_neq _ _) Hne). }
    rewrite Ho in Hp.
    pose proof (invariant_owners_nodup lost s Hinv) as Hnd. rewrite <- Hp in Hnd.
    apply NoDup_app in Hnd as (_ & Hfresh & _).
    destruct Hinv as [Ha Hn Hv Hb]. split; simpl.
    + rewrite <- Ha, <- Hp. solve_Permutation.
    + done.
    + intros j Hj. rewrite Scope.delete_other.
      * apply Hv. rewrite <- Hp. apply elem_of_app. by left.
      * intros ->. apply (Hfresh _ Hj). by apply list_elem_of_singleton.
    + intros j Hj. rewrite Scope.delete_bound. by apply Hb.
  - pose proof (invalid_owns_nothing lost s v h Hinv Hlook Hval) as Ho.
    pose proof (owners_insert_null _ v x _ Hlook Hx) as Hp.
    rewrite Ho, app_nil_r in Hp. destruct s as [hs w]. by eapply invariant_perm.
Qed.

(** [dst = std::move(src)]: the handles own what they owned before, less
    what the target owned. *)
Lemma move_assign_owners hs dst src this right :
  hs !! dst = Some (Some this) → hs !! src = Some (Some right) →
  owners (<[src := Some (Ref.Build 0%N)]>
            (<[dst := Some (Ref.Build (Ref._ref right))]> hs))
    ++ own (Some this) ≡ₚ owners hs.
Proof.
  intros Hdst Hsrc.
  pose proof (owners_insert hs dst (Some (Ref.Build (Ref._ref right))) _ Hdst) as H1.
  rewrite own_eta in H1.
  assert (Hsrc' : ∃ r, <[dst := Some (Ref.Build (Ref._ref right))]> hs !! src
                       = Some (Some r) ∧ own (Some r) = own (Some right)).
  { destruct (decide (src = dst)) as [->|Hne].
    - eexists. split; [|apply own_eta].
      apply list_lookup_insert_eq. by eapply lookup_lt_Some.
    - exists right. by rewrite list_lookup_insert_ne. }
  destruct Hsrc' as (r & Hr & Hown).
  pose proof (owners_insert_null _ src (Some (Ref.Build 0%N)) _ Hr own_null) as H2.
  rewrite Hown in H2.
  apply (Permutation_app_inv_r (own (Some right))).
  rewrite <- H1, <- H2. solve_Permutation.
Qed.

Lemma step_invariant lost o s s' :
  invariant lost s → step o s = Some s' →
  invariant (lost ++ overwritten o s) s'.
Proof.
  intros Hinv.
  destruct o as [| |src|dst src|v]; cbn [Scope.step overwritten];
    rewrite ?app_nil_r.
  - intros [= <-]. destruct s as [hs w]. eapply invariant_perm; [exact Hinv|].
    cbn [Scope.handles]. rewrite owners_snoc.
    change (own (Some Ref.default)) with (@nil GLuint). by rewrite app_nil_r.
  - pose proof (Scope.gen_valid (gl (Scope.w s))) as Hgv.
    pose proof (Scope.gen_fresh (gl (Scope.w s))) as Hgf.
    pose proof (Scope.gen_bound (gl (Scope.w s))) as Hgb.
    pose proof (Scope.gen_other (gl (Scope.w s))) as Hgo.
    destruct (GEN (gl (Scope.w s))) as [name d]. simpl in *.
    destruct Hinv as [Ha Hn Hv Hb].
    destruct (N.eqb_spec name 0) as [->|Hne]; intros [= <-]; split; simpl.
    + done.
    + done.
    + intros j Hj. rewrite Hgo; [by apply Hv|]. by eapply owners_nonzero.
    + intros j Hj. specialize (Hb j Hj). lia.
    + rewrite owners_snoc. simpl. rewrite (proj2 (N.eqb_neq _ _) Hne).
      rewrite <- Ha. solve_Permutation.
    + apply NoDup_app. split; [done|]. split; [|apply NoDup_singleton].
      intros j Hj ->%list_elem_of_singleton. specialize (Hb _ Hj).
      specialize (Hgf Hne). lia.
    + rewrite owners_snoc. simpl. rewrite (proj2 (N.eqb_neq _ _) Hne).
      intros j [Hj| ->%list_elem_of_singleton]%elem_of_app; [|by apply Hgv].
      rewrite Hgo; [by apply Hv|]. intros ->.
      assert (Hg : name ∈ generated (Scope.w s)).
      { rewrite <- Ha. apply elem_of_app. by left. }
      specialize (Hb _ Hg). specialize (Hgf Hne). lia.
    + intros j [Hj| ->%list_elem_of_singleton]%elem_of_app.
      * specialize (Hb _ Hj). lia.
      * specialize (Hgf Hne). lia.
  - destruct (Scope.alive (Scope.handles s) src) as [right|] eqn:Hsrc; [|done].
    apply alive_Some in Hsrc. simpl. intros [= <-].
    destruct s as [hs w]. eapply invariant_perm; [exact Hinv|]. simpl in *.
    rewrite owners_snoc, own_eta. by apply owners_insert_null.
  - unfold Scope.move_assign.
    destruct (Scope.alive (Scope.handles s) dst) as [this|] eqn:Hdst; [|done].
    apply alive_Some in Hdst.
    destruct (Scope.alive (Scope.handles s) src) as [right|] eqn:Hsrc; [|done].
    apply alive_Some in Hsrc. simpl. intros [= <-].
    destruct s as [hs w]. eapply invariant_drop; [exact Hinv|].
    by apply move_assign_owners.
  - destruct (Scope.alive (Scope.handles s) v) as [h|] eqn:Hv; [|done].
    apply alive_Some in Hv. simpl.
    pose proof (dtor_invariant lost s v h None Hinv Hv eq_refl) as Hinv1.
    destruct (dtor h (Scope.w s)) as [h' w1]. by intros [= <-].
Qed.

Lemma run_invariant lost ops s s' :
  invariant lost s → Scope.run IS_VALID DELETE GEN ops s = Some s' →
  invariant (lost ++ lost_in IS_VALID DELETE GEN ops s) s'.
Proof.
  revert lost s. induction ops as [|o ops IH]; intros lost s Hinv; simpl.
  - intros [= <-]. by rewrite app_nil_r.
  - destruct (step o s) as [s1|] eqn:Hstep; [|done]. simpl.
    intros Hrun. rewrite (assoc (++)).
    apply IH; [|done]. by apply step_invariant.
Qed.

End ScopeFacts.

Section UnwindFacts.
Import Ownership.
Context {D : Type}.
Context (IS_VALID : GLuint → D → bool) (DELETE : GLuint → D → D).
Context (GEN : D → GLuint * D) (bound : D → N).
Context `{!Scope.DriverLaws IS_VALID DELETE GEN bound}.

Local Abbreviation invariant := (Ownership.invariant IS_VALID bound).
Local Abbreviation destroy_if_alive := (Scope.destroy_if_alive IS_VALID DELETE GEN).
Local Abbreviation unwind := (Scope.unwind IS_VALID DELETE GEN).

Lemma dtor_generated (h : Ref.t) (w : world D) :
  generated (Ref.dtor IS_VALID DELETE h w).2 = generated w.
Proof. unfold Ref.dtor. by destruct (Ref.is_valid IS_VALID h w). Qed.

Lemma destroy_if_alive_handles v s :
  Scope.handles (destroy_if_alive v s)
  = match Scope.alive (Scope.handles s) v with
    | Some _ => <[v := None]> (Scope.handles s)
    | None => Scope.handles s
    end.
Proof.
  unfold Scope.destroy_if_alive. simpl.
  destruct (Scope.alive (Scope.handles s) v) as [h|]; [|done]. simpl.
  by destruct (Ref.dtor IS_VALID DELETE h (Scope.w s)).
Qed.

Lemma destroy_if_alive_generated v s :
  generated (Scope.w (destroy_if_alive v s)) = generated (Scope.w s).
Proof.
  unfold Scope.destroy_if_alive. simpl.
  destruct (Scope.alive (Scope.handles s) v) as [h|]; [|done]. simpl.
  pose proof (dtor_generated h (Scope.w s)) as Hg.
  by destruct (Ref.dtor IS_VALID DELETE h (Scope.w s)).
Qed.

Lemma destroy_if_alive_invariant lost v s :
  invariant lost s → invariant lost (destroy_if_alive v s).
Proof.
  intros Hinv. unfold Scope.destroy_if_alive.
  destruct (Scope.step IS_VALID DELETE GEN (Scope.Destroy v) s) as [s'|] eqn:Hs; [|done].
  pose proof (step_invariant _ _ _ _ _ _ _ _ Hinv Hs) as Hinv'.
  cbn [overwritten] in Hinv'. by rewrite app_nil_r in Hinv'.
Qed.

Lemma destroy_if_alive_dead v v' s :
  v' = v ∨ Scope.alive (Scope.handles s) v' = None →
  Scope.alive (Scope.handles (destroy_if_alive v s)) v' = None.
Proof.
  rewrite destroy_if_alive_handles.
  destruct (Scope.alive (Scope.handles s) v) as [h|] eqn:Hv.
  - apply alive_Some in Hv. unfold Scope.alive.
    destruct (decide (v' = v)) as [->|Hne].
    + intros _. rewrite list_lookup_insert_eq; [done|]. by eapply lookup_lt_Some.
    + intros [?|Hd]; [done|]. by rewrite list_lookup_insert_ne.
  - by intros [->|?].
Qed.

Lemma unwind_fold lost (l : list nat) s :
  invariant lost s →
  invariant lost (foldr destroy_if_alive s l)
  ∧ generated (Scope.w (foldr destroy_if_alive s l)) = generated (Scope.w s)
  ∧ ∀ v, v ∈ l ∨ Scope.alive (Scope.handles s) v = None →
         Scope.alive (Scope.handles (foldr destroy_if_alive s l)) v = None.
Proof.
  intros Hinv. induction l as [|v0 l (IH1 & IH2 & IH3)]; simpl.
  - split; [done|]. split; [done|]. intros v [?%elem_of_nil|?]; done.
  - split; [by apply destroy_if_alive_invariant|].
    split; [by rewrite destroy_if_alive_generated|].
    intros v Hv. apply destroy_if_alive_dead.
    destruct Hv as [[->|Hv]%elem_of_cons|Hv]; [by left|right; apply IH3..]; auto.
Qed.

Lemma unwind_spec lost s :
  invariant lost s →
  invariant lost (unwind s)
  ∧ generated (Scope.w (unwind s)) = generated (Scope.w s)
  ∧ ∀ v, Scope.alive (Scope.handles (unwind s)) v = None.
Proof.
  intros Hinv. unfold Scope.unwind.
  destruct (unwind_fold lost (seq 0 (length (Scope.handles s))) s Hinv) as (H1 & H2 & H3).
  split; [done|]. split; [done|]. intros v. apply H3.
  destruct (decide (v < length (Scope.handles s))%nat) as [Hlt|Hge].
  - left. apply elem_of_seq. lia.
  - right. unfold Scope.alive. rewrite lookup_ge_None_2; [done|lia].
Qed.

Lemma initial_invariant (d : D) : invariant [] (Scope.Build [] (World d [] [])).
Proof.
  split; simpl; [done|apply NoDup_nil_2| |]; by intros i ?%elem_of_nil.
Qed.

(** When the scope has been left, every allocated name has been released
    or was overwritten, and none of them twice. *)
Lemma released_or_lost_at_exit ops (d : D) s :
  Scope.run IS_VALID DELETE GEN ops (Scope.Build [] (World d [] [])) = Some s →
  let lost := lost_in IS_VALID DELETE GEN ops (Scope.Build [] (World d [] [])) in
  NoDup (deleted (Scope.w (unwind s)) ++ lost)
  ∧ deleted (Scope.w (unwind s)) ++ lost ≡ₚ generated (Scope.w s).
Proof.
  intros Hrun lost.
  pose proof (run_invariant _ _ _ _ _ _ _ _ (initial_invariant d) Hrun) as Hinv.
  rewrite app_nil_l in Hinv. fold lost in Hinv.
  destruct (unwind_spec lost s Hinv) as ([Ha Hn _ _] & Hg & Hdead).
  rewrite (owners_dead _ Hdead) in Ha. simpl in Ha.
  rewrite <- Hg. split; [by rewrite Ha|done].
Qed.

End UnwindFacts.


(** The drivers of the model obey the laws the lifetime argument needs. *)

Lemma names_laws :
  Scope.DriverLaws Names.is_name Names.delete Names.gen Names.bound.
Proof.
  split.
  - intros d. unfold Names.gen, Names.is_name.
    destruct (Names.capacity d <=? N.of_nat (size (Names.live d)))%N; simpl; [done|].
    intros _. apply bool_decide_eq_true, elem_of_union. left.
    by apply elem_of_singleton.
  - intros d. unfold Names.gen, Names.bound.
    destruct (Names.capacity d <=? N.of_nat (size (Names.live d)))%N; simpl; [done|].
    lia.
  - intros d. unfold Names.gen, Names.bound.
    destruct (Names.capacity d <=? N.of_nat (size (Names.live d)))%N; simpl; lia.
  - intros d j. unfold Names.gen, Names.is_name.
    destruct (Names.capacity d <=? N.of_nat (size (Names.live d)))%N; simpl; [done|].
    intros Hj. apply bool_decide_ext. rewrite elem_of_union, elem_of_singleton.
    tauto.
  - intros d i j Hj. unfold Names.delete, Names.is_name. simpl.
    apply bool_decide_ext. rewrite elem_of_difference, elem_of_singleton. tauto.
  - done.
  - intros d i. unfold Names.delete, Names.is_name. simpl.
    apply bool_decide_eq_false. rewrite elem_of_difference, elem_of_singleton. tauto.
Qed.

Lemma framebuffer_laws :
  Scope.DriverLaws (FrameBuffer.IsFrameBuffer Names.is_name)
    (FrameBuffer.DeleteFrameBuffer Names.delete) Names.gen Names.bound.
Proof.
  assert (Hb : ∀ i d, FrameBuffer.IsFrameBuffer Names.is_name i d = Names.is_name i d).
  { intros i d. unfold FrameBuffer.IsFrameBuffer. by destruct (Names.is_name i d). }
  destruct names_laws as [H1 H2 H3 H4 H5 H6 H7].
  split; intros; rewrite ?Hb; auto.
Qed.

Lemma program_laws :
  Scope.DriverLaws ProgramObject.IsProgramObj ProgramObject.DeleteProgramObj
    ProgramObject.glCreateProgram (λ d, N.succ (ProgramObject.handed_out d)).
Proof.
  assert (Hb : ∀ i d, ProgramObject.IsProgramObj i d
                      = bool_decide (is_Some (ProgramObject.programs d !! i))).
  { intros i d. unfold ProgramObject.IsProgramObj, ProgramObject.glIsProgram.
    by destruct (bool_decide (is_Some _)). }
  split.
  - intros d. rewrite Hb. unfold ProgramObject.glCreateProgram.
    destruct (_ <=? _)%N; simpl; [done|]. intros _.
    apply bool_decide_eq_true. by rewrite lookup_insert_eq.
  - intros d. unfold ProgramObject.glCreateProgram.
    destruct (_ <=? _)%N; simpl; [done|]. lia.
  - intros d. unfold ProgramObject.glCreateProgram.
    destruct (_ <=? _)%N; simpl; lia.
  - intros d j. rewrite !Hb. unfold ProgramObject.glCreateProgram.
    destruct (_ <=? _)%N; simpl; [done|]. intros Hj.
    by rewrite lookup_insert_ne.
  - intros d i j Hj. rewrite !Hb. unfold ProgramObject.DeleteProgramObj,
      ProgramObject.glDeleteProgram. simpl. by rewrite lookup_delete_ne.
  - done.
  - intros d i. rewrite Hb. unfold ProgramObject.DeleteProgramObj,
      ProgramObject.glDeleteProgram. simpl. apply bool_decide_eq_false.
    rewrite lookup_delete_eq. by intros [? ?].
Qed.



(** ** FrameBuffer::create *)

Lemma error_code_lor_flag (e : GLenum) : error_code e → error_code (Z.lor e UNCHECKED_FLAG).
Proof. unfold error_code. by rewrite clean_lor_flag. Qed.

Lemma error_code_clean (e : GLenum) :
  error_code e → error_code (Z.land e (lnot32 UNCHECKED_FLAG)).
Proof. unfold error_code. by rewrite clean_idem. Qed.

Lemma error_reports {T} (e : GLenum) (c : option string) :
  error_code e →
  GLExpected.has_value (T:=T) (GLExpected.Build e (GLExpected.context_member c))
  = (false, GLExpected.Build (Z.land e (lnot32 UNCHECKED_FLAG)) (GLExpected.context_member c))
  ∧ (GLExpected.has_error (T:=T) (GLExpected.Build e (GLExpected.context_member c))).1 = true.
Proof.
  intros [H0 Hi]. unfold GLExpected.has_error, GLExpected.has_value,
    GLExpected._checked, GLExpected.peek. cbn [GLExpected._error GLExpected._union fst].
  rewrite clean_idem.
  apply Z.eqb_neq in H0, Hi. unfold GL_NO_ERROR in *. by rewrite H0, Hi.
Qed.

Lemma GL_ERROR_reports {T} (g : GLenum) (name : option string) (r : GLExpected.t T) :
  GL_ERROR g name = Some r →
  error_code g
  ∧ r = GLExpected.Build (Z.land g (lnot32 UNCHECKED_FLAG)) (GLExpected.context_member None).
Proof.
  unfold GL_ERROR, GLError.has_error, GLError.of_context, GLError._checked, GLError._clean.
  cbn [GLError._error GLError._context]. rewrite clean_lor_flag, clean_idem.
  destruct (Z.eqb_spec (Z.land g (lnot32 UNCHECKED_FLAG)) INVALID_ERROR) as [|Hi]; [done|].
  destruct (Z.eqb_spec (Z.land g (lnot32 UNCHECKED_FLAG)) GL_NO_ERROR) as [|H0]; [done|].
  cbn [negb andb]. intros [= <-]. split; [done|].
  unfold GLExpected.of_error, GLError.take. cbn [GLError._error GLError._context].
  apply Z.eqb_neq in Hi. by rewrite !Hi.
Qed.

(** A Result that the [GL_ERROR] macro returns with: the macro has tested the
    GLError, which cleared its flag, and [GLError::take] dropped its
    context; the Result reports the error, carries no UNCHECKED flag and is
    destroyed without an assertion although nothing has inspected it. *)
Lemma GL_ERROR_result_is_checked {T} (g : GLenum) (name : option string)
    (r : GLExpected.t T) :
  GL_ERROR g name = Some r →
  (GLExpected.has_error r).1 = true
  ∧ GLExpected._union r = GLExpected.context_member None
  ∧ Z.land (GLExpected._error r) UNCHECKED_FLAG = 0
  ∧ GLExpected.dtor false r = Done ().
Proof.
  intros [He ->]%GL_ERROR_reports.
  destruct (error_reports (T:=T) _ None (error_code_clean g He)) as [_ Hr].
  split; [done|]. split; [done|].
  assert (Hf : Z.land (Z.land g (lnot32 UNCHECKED_FLAG)) UNCHECKED_FLAG = 0).
  { by rewrite land_flag_testbit, testbit_clean. }
  split; [exact Hf|].
  destruct He as [H0 Hi]. unfold GLExpected.dtor, GLExpected.peek.
  cbn [GLExpected._error]. rewrite clean_idem, Hf.
  apply Z.eqb_neq in H0, Hi. by rewrite H0, Hi.
Qed.

Lemma GL_ERROR_result_is_checked_witness :
  ∃ r : GLExpected.t Z,
    GL_ERROR GL_INVALID_ENUM (Some "glBindTexture") = Some r
    ∧ (GLExpected.has_error r).1 = true
    ∧ GLExpected._union r = GLExpected.context_member None
    ∧ Z.land (GLExpected._error r) UNCHECKED_FLAG = 0
    ∧ GLExpected.dtor false r = Done ().
Proof.
  eexists. split; [reflexivity|].
  apply (GL_ERROR_result_is_checked GL_INVALID_ENUM (Some "glBindTexture")).
  reflexivity.
Defined.

Section FrameBufferFacts.
Context {D : Type}.
Context (glIsFramebuffer : GLuint → D → bool) (glDeleteFramebuffers : GLuint → D → D).
Context (glGenFramebuffers : D → GLuint * D).
Context (glFramebufferTexture : D → GLuint → GLenum → GLenum → GLuint → Z → Z → GLenum).
Context (GL_MAX_COLOR_ATTACHMENTS : N) (limit_error : GLenum) (bound : D → N).
Context `{!Scope.DriverLaws (FrameBuffer.IsFrameBuffer glIsFramebuffer)
             (FrameBuffer.DeleteFrameBuffer glDeleteFramebuffers)
             glGenFramebuffers bound}.

Local Abbreviation attach :=
  (FrameBuffer.attach glFramebufferTexture GL_MAX_COLOR_ATTACHMENTS limit_error).
Local Abbreviation create :=
  (FrameBuffer.create glIsFramebuffer glDeleteFramebuffers glGenFramebuffers
     glFramebufferTexture GL_MAX_COLOR_ATTACHMENTS limit_error).
Local Abbreviation IsFrameBuffer := (FrameBuffer.IsFrameBuffer glIsFramebuffer).

Lemma attach_each_reports d fb target type level zoffset textures r :
  FrameBuffer.attach_each glFramebufferTexture d fb target type level zoffset textures
  = Some r →
  ∃ e, error_code e ∧ r = GLExpected.Build e (GLExpected.context_member None).
Proof.
  revert type. induction textures as [|texture rest IH]; intros type; simpl; [done|].
  destruct (GL_ERROR _ _) as [e|] eqn:He.
  - intros [= <-]. apply GL_ERROR_reports in He as [He ->].
    eexists. split; [|done]. by apply error_code_clean.
  - apply IH.
Qed.

(** What [attach] returns: success, or an error Result. *)
Lemma attach_result (this : FrameBuffer.t) w target type level zoffset textures :
  error_code limit_error →
  FrameBuffer.ref (attach this w target type level zoffset textures).2 = FrameBuffer.ref this
  ∧ (((attach this w target type level zoffset textures).1 = GLExpected.of_value ()
       ∧ FrameBuffer.is_color type
         && (GL_MAX_COLOR_ATTACHMENTS <? N.of_nat (length textures))%N = false)
     ∨ ∃ e, error_code e
            ∧ (attach this w target type level zoffset textures).1
              = GLExpected.Build e (GLExpected.context_member None)).
Proof.
  intros Hl. unfold FrameBuffer.attach.
  destruct (FrameBuffer.is_color type
            && (GL_MAX_COLOR_ATTACHMENTS <? N.of_nat (length textures))%N).
  - split; [done|]. right. exists (Z.lor limit_error UNCHECKED_FLAG).
    split; [by apply error_code_lor_flag|]. by rewrite of_error_make.
  - destruct (FrameBuffer.attach_each _ _ _ _ _ _ _ _) as [e|] eqn:He.
    + split; [done|]. right. by eapply attach_each_reports.
    + split; [done|]. by left.
Qed.

Lemma create_spec (w : world D) target type level zoffset textures :
  error_code limit_error →
  ∃ r w', create w target type level zoffset textures = Done (r, w')
    ∧ ((∃ e, error_code e
             ∧ r = GLExpected.Build e (GLExpected.context_member None)
             ∧ ((generated w' = generated w ∧ deleted w' = deleted w)
                ∨ ∃ name, generated w' = generated w ++ [name]
                          ∧ deleted w' = deleted w ++ [name]
                          ∧ IsFrameBuffer name (gl w') = false))
       ∨ (∃ name n, r = GLExpected.of_value (FrameBuffer.Build (Ref.Build name) n)
                    ∧ generated w' = generated w ++ [name]
                    ∧ deleted w' = deleted w
                    ∧ IsFrameBuffer name (gl w') = true
                    ∧ FrameBuffer.is_color type
                      && (GL_MAX_COLOR_ATTACHMENTS <? N.of_nat (length textures))%N
                      = false)).
Proof.
  intros Hl. unfold FrameBuffer.create.
  pose proof (Scope.gen_valid (gl w)) as Hgv.
  destruct (glGenFramebuffers (gl w)) as [name d]. cbn [fst snd] in Hgv.
  destruct (N.eqb_spec name 0) as [->|Hne].
  { do 2 eexists. split; [done|]. left.
    exists (Z.lor GL_OUT_OF_MEMORY UNCHECKED_FLAG).
    split; [split; vm_compute; discriminate|]. split; [by rewrite of_error_make|].
    by left. }
  specialize (Hgv Hne).
  set (w1 := World d (generated w ++ [name]) (deleted w)).
  set (fb := FrameBuffer.Build (Ref.of_name name) 0).
  destruct (attach_result fb w1 target type level zoffset textures Hl) as [Href Hres].
  destruct (attach fb w1 target type level zoffset textures) as [r fb1].
  cbn [fst snd] in Href, Hres.
  destruct Hres as [[-> Hlimit]|(e & He & ->)].
  - change (GLExpected.has_value (GLExpected.of_value ()))
      with (true, GLExpected.Build (T:=()) 0 (GLExpected.result_member ())).
    cbn iota. rewrite Href. cbn [Ref.move Ref.of_name FrameBuffer.ref Ref._ref].
    change (Ref.dtor IsFrameBuffer (FrameBuffer.DeleteFrameBuffer glDeleteFramebuffers)
              (Ref.Build 0%N) w1) with (Ref.Build 0%N, w1).
    cbn iota. do 2 eexists. split; [done|]. right. exists name. eexists.
    split; [reflexivity|]. by repeat split.
  - destruct (error_reports (T:=()) e None He) as [-> _]. cbn iota.
    pose proof (error_code_clean e He) as [Hc0 Hci].
    unfold GLExpected.move_convert, GLExpected.peek.
    cbn [GLExpected._error GLExpected._union].
    apply Z.eqb_neq in Hc0, Hci. rewrite clean_idem in *.
    rewrite Hci, Hc0. cbn [mbind outcome_bind mret outcome_ret]. cbn iota.
    rewrite Href. unfold Ref.dtor, Ref.is_valid.
    cbn [FrameBuffer.ref fb Ref.of_name Ref._ref w1 gl generated deleted].
    rewrite (proj2 (N.eqb_neq _ _) Hne), Hgv. cbn [negb andb]. cbn iota.
    do 2 eexists. split; [done|]. left.
    exists (Z.land e (lnot32 UNCHECKED_FLAG)).
    split; [by apply error_code_clean|]. split; [done|]. right.
    exists name. cbn [generated deleted gl]. split; [done|]. split; [done|].
    apply Scope.delete_invalid.
Qed.

End FrameBufferFacts.

(** C6.  [FrameBuffer::create] always returns (it stops in no assertion).
    Called for a color attachment type with more images than the driver's
    maximum of simultaneous color attachments, it returns a Result that
    reports an error.  Whenever the Result it returns holds no value, it
    reports an error, and either no framebuffer was allocated or the one
    that was allocated has been passed to the release function before the
    return and is no live framebuffer any more. *)
Theorem create_failure_reports_and_releases {D : Type}
    (glIsFramebuffer : GLuint → D → bool) (glDeleteFramebuffers : GLuint → D → D)
    (glGenFramebuffers : D → GLuint * D)
    (glFramebufferTexture : D → GLuint → GLenum → GLenum → GLuint → Z → Z → GLenum)
    (GL_MAX_COLOR_ATTACHMENTS : N) (limit_error : GLenum) (bound : D → N)
    `{!Scope.DriverLaws (FrameBuffer.IsFrameBuffer glIsFramebuffer)
         (FrameBuffer.DeleteFrameBuffer glDeleteFramebuffers) glGenFramebuffers bound}
    (w : world D) (target type : GLenum) (level zoffset : Z) (textures : list GLuint) :
  error_code limit_error →
  ∃ (r : GLExpected.t FrameBuffer.t) (w' : world D),
    FrameBuffer.create glIsFramebuffer glDeleteFramebuffers glGenFramebuffers
      glFramebufferTexture GL_MAX_COLOR_ATTACHMENTS limit_error
      w target type level zoffset textures = Done (r, w')
    ∧ (FrameBuffer.is_color type = true →
       (GL_MAX_COLOR_ATTACHMENTS < N.of_nat (length textures))%N →
       (GLExpected.has_error r).1 = true)
    ∧ (GLExpected.peek r = false →
       (GLExpected.has_error r).1 = true
       ∧ ((generated w' = generated w ∧ deleted w' = deleted w)
          ∨ ∃ name, generated w' = generated w ++ [name]
                    ∧ deleted w' = deleted w ++ [name]
                    ∧ FrameBuffer.IsFrameBuffer glIsFramebuffer name (gl w') = false)).
Proof.
  intros Hl.
  destruct (create_spec glIsFramebuffer glDeleteFramebuffers glGenFramebuffers
              glFramebufferTexture GL_MAX_COLOR_ATTACHMENTS limit_error bound
              w target type level zoffset textures Hl)
    as (r & w' & Hc & [(e & He & -> & Hw)|(name & n & -> & _ & _ & _ & Hlimit)]).
  - eexists. exists w'. split; [exact Hc|].
    destruct (error_reports (T:=FrameBuffer.t) e None He) as [_ Hr].
    split; [done|]. by intros _.
  - eexists. exists w'. split; [exact Hc|]. split; [|done].
    intros Hcol Hlt%N.ltb_lt. by rewrite Hcol, Hlt in Hlimit.
Qed.

Lemma create_failure_reports_and_releases_witness :
  ∃ (r : GLExpected.t FrameBuffer.t) (w' : world Names.t),
    FrameBuffer.create Names.is_name Names.delete Names.gen
      (λ _ _ _ _ _ _ _, GL_NO_ERROR) 2 GL_INVALID_VALUE
      (World (Names.empty 8) [] []) 0x8D40 FrameBuffer.GL_COLOR_ATTACHMENT0 0 0
      [10; 11; 12]%N
    = Done (r, w')
    ∧ (GLExpected.has_error r).1 = true
    ∧ generated w' = [1%N]
    ∧ deleted w' = [1%N]
    ∧ FrameBuffer.IsFrameBuffer Names.is_name 1%N (gl w') = false.
Proof.
  destruct (create_failure_reports_and_releases Names.is_name Names.delete Names.gen
              (λ _ _ _ _ _ _ _, GL_NO_ERROR) 2 GL_INVALID_VALUE Names.bound
              (H := framebuffer_laws)
              (World (Names.empty 8) [] []) 0x8D40 FrameBuffer.GL_COLOR_ATTACHMENT0 0 0
              [10; 11; 12]%N)
    as (r & w' & Hc & Hlimit & _); [split; vm_compute; discriminate|].
  exists r, w'. split; [exact Hc|]. split; [by apply Hlimit|].
  vm_compute in Hc. injection Hc as <- <-. by repeat split.
Defined.

(** ** ProgramObject::link *)

Section ProgramFacts.
Context (accepts : list GLuint → GLuint → bool) (links : list GLuint → bool).
Implicit Types (w : world ProgramObject.driver) (p : ProgramObject.t).

Lemma shader_dtor_programs (shader : Ref.t) w :
  ProgramObject.programs
    (gl (Ref.dtor ProgramObject.IsShaderObj ProgramObject.DeleteShaderObj shader w).2)
  = ProgramObject.programs (gl w).
Proof.
  unfold Ref.dtor.
  by destruct (Ref.is_valid ProgramObject.IsShaderObj shader w).
Qed.

Lemma failed_attach_programs p (shader : Ref.t) w :
  GLExpected.peek (ProgramObject.attach accepts p shader w).1 = false →
  ProgramObject.programs (gl (ProgramObject.attach accepts p shader w).2)
  = ProgramObject.programs (gl w).
Proof.
  unfold ProgramObject.attach.
  destruct (ProgramObject.programs (gl w) !! Ref._ref (ProgramObject.ref p)) as [prog|];
    [destruct (ProgramObject.is_valid p w && _);
       [destruct (accepts _ _)|]|];
    cbn [fst snd]; intros Hp; by rewrite shader_dtor_programs.
Qed.

Lemma failed_attaches_programs p (shaders : list Ref.t) w :
  Forall (λ r, GLExpected.peek r = false) (ProgramObject.attach_all accepts p shaders w).1 →
  ProgramObject.programs (gl (ProgramObject.attach_all accepts p shaders w).2)
  = ProgramObject.programs (gl w).
Proof.
  revert w. induction shaders as [|shader rest IH]; intros w; simpl; [done|].
  pose proof (failed_attach_programs p shader w) as Ha.
  destruct (ProgramObject.attach accepts p shader w) as [r w1].
  specialize (IH w1).
  destruct (ProgramObject.attach_all accepts p rest w1) as [rs w2].
  cbn [fst snd] in *. intros [Hr Hrs]%Forall_cons.
  by rewrite IH, Ha.
Qed.

Lemma create_program p w :
  GLExpected.holds_value (ProgramObject.create w).1 p →
  Ref._ref (ProgramObject.ref p) ≠ 0%N
  ∧ ProgramObject.programs (gl (ProgramObject.create w).2)
      !! Ref._ref (ProgramObject.ref p)
    = Some (ProgramObject.Program [] false).
Proof.
  unfold ProgramObject.create, ProgramObject.glCreateProgram.
  destruct (_ <=? _)%N; cbn [fst snd]; intros [Hp Hu].
  - discriminate.
  - rewrite (proj2 (N.eqb_neq (N.succ _) 0)) in Hp, Hu |- * by lia.
    cbn [fst snd] in *. injection Hu as <-. cbn [ProgramObject.ref Ref._ref Ref.of_name gl
      ProgramObject.programs].
    split; [lia|]. by rewrite lookup_insert_eq.
Qed.

Lemma link_unattached p w :
  Ref._ref (ProgramObject.ref p) ≠ 0%N →
  ProgramObject.programs (gl w) !! Ref._ref (ProgramObject.ref p)
  = Some (ProgramObject.Program [] false) →
  (GLExpected.has_error (ProgramObject.link links p w).1).1 = true
  ∧ ProgramObject.is_valid p w = true
  ∧ ProgramObject.is_valid p (ProgramObject.link links p w).2 = true
  ∧ ProgramObject.usable p (ProgramObject.link links p w).2 = false.
Proof.
  intros Hne Hprog. unfold ProgramObject.link. rewrite Hprog.
  cbn [ProgramObject.attached fst snd].
  unfold ProgramObject.is_valid, Ref.is_valid, ProgramObject.IsProgramObj,
    ProgramObject.glIsProgram, ProgramObject.usable, ProgramObject.set_program.
  cbn [gl ProgramObject.programs].
  rewrite (proj2 (N.eqb_neq _ _) Hne), Hprog, lookup_insert_eq.
  split; [reflexivity|]. cbn [negb andb ProgramObject.linked].
  rewrite !bool_decide_eq_true_2; [done|by eexists..].
Qed.

End ProgramFacts.

(** C7.  A program object that [create()] has just made, on which no
    [attach()] has succeeded: [link()] returns a Result that reports an
    error; the handle was valid before and is valid after ([is_valid()] is
    true, so the destructor will release it), and the program is not usable
    for drawing. *)
Theorem link_without_attach_fails_and_stays_valid
    (accepts : list GLuint → GLuint → bool) (links : list GLuint → bool)
    (w : world ProgramObject.driver) (p : ProgramObject.t) (shaders : list Ref.t) :
  GLExpected.holds_value (ProgramObject.create w).1 p →
  Forall (λ r, GLExpected.peek r = false)
    (ProgramObject.attach_all accepts p shaders (ProgramObject.create w).2).1 →
  let w2 := (ProgramObject.attach_all accepts p shaders (ProgramObject.create w).2).2 in
  (GLExpected.has_error (ProgramObject.link links p w2).1).1 = true
  ∧ ProgramObject.is_valid p (ProgramObject.link links p w2).2 = true
  ∧ ProgramObject.usable p (ProgramObject.link links p w2).2 = false.
Proof.
  intros Hc Hfail w2.
  destruct (create_program p w Hc) as [Hne Hprog].
  rewrite <- (failed_attaches_programs accepts p shaders _ Hfail) in Hprog.
  destruct (link_unattached links p w2 Hne Hprog) as (H1 & _ & H2 & H3).
  done.
Qed.

Lemma link_without_attach_fails_and_stays_valid_witness :
  let d := ProgramObject.Driver ∅ 0 4 (Names.empty 4) in
  let w : world ProgramObject.driver := World d [] [] in
  let p := ProgramObject.Build (Ref.Build 1%N) in
  let accepts := λ (_ : list GLuint) (_ : GLuint), true in
  let links := λ _ : list GLuint, true in
  let w2 := (ProgramObject.attach_all accepts p [Ref.Build 7%N] (ProgramObject.create w).2).2 in
  (ProgramObject.create w).1 = GLExpected.of_value p
  ∧ (GLExpected.has_error (ProgramObject.link links p w2).1).1 = true
  ∧ ProgramObject.is_valid p (ProgramObject.link links p w2).2 = true
  ∧ ProgramObject.usable p (ProgramObject.link links p w2).2 = false.
Proof.
  intros d w p accepts links w2. split; [reflexivity|].
  apply (link_without_attach_fails_and_stays_valid accepts links w p [Ref.Build 7%N]).
  - split; reflexivity.
  - repeat constructor.
Defined.

(* ================================================================== *)
(** * More of GLError.h *)
(* ================================================================== *)

(** ** GLError: the check, moves, equality, take *)

Lemma GLError_dtor_testbit NDEBUG (e : GLError.t) :
  GLError.dtor NDEBUG e = assert_ NDEBUG (negb (Z.testbit (GLError._error e) 31)).
Proof. unfold GLError.dtor. by rewrite flag_set_iff. Qed.

Lemma GLError_dtor_checked NDEBUG (e : GLError.t) :
  GLError.dtor NDEBUG (GLError.has_error e).2 = Done ().
Proof.
  rewrite GLError_dtor_testbit. unfold GLError.has_error, GLError._checked.
  cbn [snd GLError._error]. rewrite testbit_clean. unfold assert_.
  by rewrite orb_true_r.
Qed.

Lemma GLError_clean_checked (e : GLError.t) :
  GLError._clean (GLError._checked e) = GLError._clean e.
Proof. unfold GLError._clean, GLError._checked. simpl. apply clean_idem. Qed.

Lemma GLError_has_error_make (err : GLenum) (ctx : option string) :
  (GLError.has_error (GLError.make err ctx)).1 = true ↔ error_code err.
Proof.
  unfold GLError.has_error, GLError._clean, GLError._checked, GLError.make, error_code.
  cbn [fst GLError._error]. rewrite clean_idem, clean_lor_flag.
  rewrite andb_true_iff, !negb_true_iff, !Z.eqb_neq. tauto.
Qed.

(** X2.  [has_error()] (and [operator bool], which forwards to it) is the
    check of a GLError: whatever the GLError, after the call its destructor
    passes, a second call gives the same answer, and the context is
    untouched.  A GLError from any of the three flagging constructors that
    is never tested stops in the destructor's assertion.  One made with an
    explicit code reports an error exactly when the code, its top bit
    masked off, is neither [GL_NO_ERROR] nor the invalid sentinel, and a
    GLError that reports an error never peeks as clean. *)
Theorem GLError_has_error_is_the_check (e : GLError.t) (err g : GLenum)
    (ctx : option string) (NDEBUG : bool) :
  GLError.dtor NDEBUG (GLError.has_error e).2 = Done ()
  ∧ GLError.has_error (GLError.has_error e).2 = GLError.has_error e
  ∧ GLError._context (GLError.has_error e).2 = GLError._context e
  ∧ GLError.dtor false (GLError.make err ctx) = AssertionFailed
  ∧ GLError.dtor false (GLError.of_context g ctx) = AssertionFailed
  ∧ GLError.dtor false GLError.default = AssertionFailed
  ∧ ((GLError.has_error (GLError.make err ctx)).1 = true ↔ error_code err)
  ∧ ((GLError.has_error e).1 = true → GLError.peek e = false).
Proof.
  split; [apply GLError_dtor_checked|].
  split.
  { unfold GLError.has_error. cbn [snd]. rewrite !GLError_clean_checked.
    f_equal. unfold GLError._checked. cbn [GLError._error GLError._context].
    by rewrite clean_idem. }
  split; [done|].
  split; [rewrite GLError_dtor_testbit; unfold GLError.make; cbn [GLError._error];
          by rewrite testbit_lor_flag|].
  split; [rewrite GLError_dtor_testbit; unfold GLError.of_context; cbn [GLError._error];
          by rewrite testbit_lor_flag|].
  split; [done|].
  split; [apply GLError_has_error_make|].
  unfold GLError.has_error, GLError.peek. cbn [fst]. rewrite GLError_clean_checked.
  intros [_ H]%andb_prop. by apply negb_true_iff in H.
Qed.

(** X3.  Moving a GLError hands over its error word and context, and with
    them the duty to check; what is left behind is a checked no-error, whose
    destructor passes.  Move assignment destroys the target first: onto a
    GLError that was never tested it stops in the assertion, whatever is
    assigned; onto a tested one it is the move. *)
Theorem GLError_move_hands_over (this right : GLError.t) (err : GLenum)
    (ctx : option string) (NDEBUG : bool) :
  (GLError.move right).1 = right
  ∧ GLError.has_error (GLError.move right).2 = (false, (GLError.move right).2)
  ∧ GLError.peek (GLError.move right).2 = true
  ∧ GLError.dtor NDEBUG (GLError.move right).2 = Done ()
  ∧ GLError.assign false (GLError.make err ctx) right = AssertionFailed
  ∧ GLError.assign NDEBUG (GLError.has_error this).2 right = Done (GLError.move right).
Proof.
  split; [by destruct right|]. split; [done|]. split; [done|].
  split; [by destruct NDEBUG|].
  split.
  - unfold GLError.assign. rewrite GLError_dtor_testbit. unfold GLError.make.
    cbn [GLError._error]. by rewrite testbit_lor_flag.
  - unfold GLError.assign. by rewrite GLError_dtor_checked.
Qed.

(** X4.  [operator==] and [operator!=] compare the raw error words: each is
    the negation of the other, the comparison is reflexive and symmetric
    and ignores the context, and it sees the debug flag: of two GLErrors
    constructed from the same error code, which compare equal, the one that
    [has_error()] has tested since compares unequal to the one that is
    still as constructed. *)
Theorem GLError_equality_reads_the_raw_word (a b : GLError.t) (err : GLenum)
    (c1 c2 : option string) :
  GLError.neq a b = negb (GLError.eq a b)
  ∧ GLError.eq a a = true
  ∧ GLError.eq a b = GLError.eq b a
  ∧ GLError.eq (GLError.in_place err c1) (GLError.in_place err c2) = true
  ∧ GLError.eq (GLError.make err c1) (GLError.make err c2) = true
  ∧ GLError.eq (GLError.make err c1) (GLError.has_error (GLError.make err c1)).2 = false
  ∧ GLError.neq (GLError.make err c1) (GLError.has_error (GLError.make err c1)).2 = true.
Proof.
  assert (Hne : GLError.eq (GLError.make err c1)
                  (GLError.has_error (GLError.make err c1)).2 = false).
  { unfold GLError.eq, GLError.has_error, GLError._checked, GLError.make.
    cbn [snd GLError._error]. apply Z.eqb_neq. intros E.
    pose proof (testbit_clean (Z.lor err UNCHECKED_FLAG)) as Hb.
    rewrite E, testbit_lor_flag in Hb. discriminate. }
  split; [done|]. split; [apply Z.eqb_refl|]. split; [apply Z.eqb_sym|].
  split; [apply Z.eqb_refl|]. split; [apply Z.eqb_refl|].
  split; [exact Hne|]. unfold GLError.neq. fold (GLError.eq (GLError.make err c1)
    (GLError.has_error (GLError.make err c1)).2). by rewrite Hne.
Qed.

(** X5.  [GLError::take] hands out the error word as it is and leaves a
    GLError whose destructor passes and that reports no error.  The invalid
    sentinel stays: taking from an invalid GLError gives the sentinel again
    and again; taking a second time from any other gives [GL_NO_ERROR]. *)
Theorem GLError_take_empties (e : GLError.t) (NDEBUG : bool) :
  (GLError.take e).1.1 = GLError._error e
  ∧ GLError.dtor NDEBUG (GLError.take e).2 = Done ()
  ∧ (GLError.has_error (GLError.take e).2).1 = false
  ∧ GLError.take (GLError.take e).2
    = ((if GLError._error e =? INVALID_ERROR then INVALID_ERROR else GL_NO_ERROR, None),
       (GLError.take e).2).
Proof.
  unfold GLError.take.
  destruct (Z.eqb_spec (GLError._error e) INVALID_ERROR) as [E|_]; cbn [fst snd].
  - split; [done|]. split; [|split].
    + rewrite GLError_dtor_testbit, E. by destruct NDEBUG.
    + unfold GLError.has_error, GLError._clean, GLError._checked.
      cbn [fst GLError._error]. by rewrite E.
    + by rewrite E.
  - split; [done|]. split; [by destruct NDEBUG|]. by split.
Qed.

(** X6.  The [GL_ERROR] macro returns from the enclosing function exactly
    when the driver's pending error, its top bit masked off, is neither
    [GL_NO_ERROR] nor the invalid sentinel; otherwise control falls
    through.  On either path the temporary GLError is destroyed without an
    assertion. *)
Theorem GL_ERROR_returns_iff_error {T : Type} (g : GLenum) (name : option string)
    (NDEBUG : bool) :
  (is_Some (GL_ERROR (T:=T) g name) ↔ error_code g)
  ∧ GLError.dtor NDEBUG (GLError.has_error (GLError.of_context g name)).2 = Done ()
  ∧ GLError.dtor NDEBUG
      (GLExpected.of_error (T:=T) (GLError.has_error (GLError.of_context g name)).2).2
    = Done ().
Proof.
  split; [|split; [apply GLError_dtor_checked|]].
  - split.
    + intros [r Hr]. by apply GL_ERROR_reports in Hr as [? _].
    + intros He. unfold GL_ERROR.
      pose proof (proj2 (GLError_has_error_make g name) He) as Hh.
      change (GLError.of_context g name) with (GLError.make g name).
      destruct (GLError.has_error (GLError.make g name)) as [b e1].
      cbn [fst] in Hh. subst b. by eexists.
  - unfold GLExpected.of_error.
    pose proof (GLError_take_empties
                  (GLError.has_error (GLError.of_context g name)).2 NDEBUG) as (_ & Hd & _).
    destruct (GLError.take _) as [[err ctx] right'].
    cbn [snd] in Hd. by destruct (err =? INVALID_ERROR).
Qed.

(** ** GLExpected: checking, the consumed state, take on a value, assignment *)

Section MoreGLExpectedFacts.
Context {T : Type}.
Implicit Types (x : GLExpected.t T) (v : T).

Lemma checked_idem x :
  GLExpected._checked (GLExpected._checked x) = GLExpected._checked x.
Proof. unfold GLExpected._checked. cbn. by rewrite clean_idem. Qed.

Lemma dtor_well_formed_checked NDEBUG x :
  Coroutine.well_formed x →
  GLExpected.dtor NDEBUG (GLExpected._checked x) = Done ().
Proof.
  intros Hwf. unfold GLExpected.dtor.
  destruct (GLExpected._error (GLExpected._checked x) =? INVALID_ERROR); [done|].
  cbn [negb]. rewrite peek_checked, flag_set_iff.
  assert (Hb : Z.testbit (GLExpected._error (GLExpected._checked x)) 31 = false)
    by exact (testbit_clean (GLExpected._error x)).
  rewrite Hb. unfold assert_. rewrite orb_true_r.
  destruct Hwf as [Hc|[[v [Hp Hu]]|[c [Hp _]]]].
  - by rewrite (consumed_not_peek x Hc).
  - rewrite Hp. unfold GLExpected._result, GLExpected._checked.
    cbn [GLExpected._union]. by rewrite Hu.
  - by rewrite Hp.
Qed.

Lemma dtor_well_formed NDEBUG x :
  Coroutine.well_formed x →
  GLExpected.dtor NDEBUG x
  = assert_ NDEBUG (negb (Z.testbit (GLExpected._error x) 31)).
Proof.
  intros Hwf. unfold GLExpected.dtor.
  destruct (Z.eqb_spec (GLExpected._error x) INVALID_ERROR) as [E|Hne]; cbn [negb].
  - rewrite E, testbit_INVALID_ERROR. by destruct NDEBUG.
  - rewrite flag_set_iff.
    destruct Hwf as [Hc|[[v [Hp Hu]]|[c [Hp _]]]]; [done| |by rewrite Hp].
    rewrite Hp. unfold GLExpected._result. by rewrite Hu.
Qed.

End MoreGLExpectedFacts.

(** X7.  Checking a Result.  [has_value()] and [has_error()] leave the same
    object behind and never both answer yes; both answer no exactly when
    the object is then consumed.  Asking again gives the same answers, the
    payload is untouched, and the destructor of the checked object passes. *)
Theorem checking_settles_the_state {T : Type} (x : GLExpected.t T) (NDEBUG : bool) :
  Coroutine.well_formed x →
  (GLExpected.has_error x).2 = (GLExpected.has_value x).2
  ∧ (GLExpected.has_value x).1 && (GLExpected.has_error x).1 = false
  ∧ ((GLExpected.has_value x).1 = false ∧ (GLExpected.has_error x).1 = false
     ↔ GLExpected.consumed (GLExpected.has_value x).2)
  ∧ GLExpected.has_value (GLExpected.has_value x).2 = GLExpected.has_value x
  ∧ GLExpected.has_error (GLExpected.has_value x).2 = GLExpected.has_error x
  ∧ GLExpected._union (GLExpected.has_value x).2 = GLExpected._union x
  ∧ GLExpected.dtor NDEBUG (GLExpected.has_value x).2 = Done ().
Proof.
  intros Hwf. unfold GLExpected.has_error, GLExpected.has_value, GLExpected.consumed.
  cbn [fst snd]. rewrite !checked_idem.
  split; [done|].
  split; [by destruct (GLExpected.peek _)|].
  split.
  { destruct (GLExpected.peek (GLExpected._checked x)) eqn:Hp; cbn [negb andb].
    - split; [by intros [? _]|]. intros E. unfold GLExpected.peek in Hp.
      rewrite E in Hp. discriminate.
    - rewrite negb_false_iff, Z.eqb_eq. tauto. }
  split; [done|]. split; [done|]. split; [done|].
  by apply dtor_well_formed_checked.
Qed.

Lemma checking_settles_the_state_witness :
  let x : GLExpected.t Z :=
    (GLExpected.of_error (GLError.make GL_INVALID_VALUE (Some "glTexImage2D"))).1 in
  GLExpected.has_value x = (false, GLExpected.Build GL_INVALID_VALUE (GLExpected.context_member None))
  ∧ GLExpected.has_error x = (true, GLExpected.Build GL_INVALID_VALUE (GLExpected.context_member None))
  ∧ GLExpected.dtor false x = AssertionFailed
  ∧ GLExpected.dtor false (GLExpected.has_value x).2 = Done ().
Proof.
  intros x.
  assert (Hwf : Coroutine.well_formed x).
  { right. right. exists None. repeat split. vm_compute. discriminate. }
  destruct (checking_settles_the_state x false Hwf) as (_ & _ & _ & _ & _ & _ & Hd).
  split; [reflexivity|]. split; [reflexivity|]. split; [reflexivity|exact Hd].
Defined.

(** X8.  A consumed Result (a default-constructed one, or one an error was
    taken or moved out of): [has_value()] and [has_error()] both answer no
    and change nothing; [value()], [operator*], [operator->] and [take()]
    stop in their assertions; [value_or] gives the fallback; moving it
    gives another consumed Result; its destructor passes. *)
Theorem consumed_result_behaviour {T : Type} (mv : T → T) (x : GLExpected.t T)
    (fallback : T) (NDEBUG : bool) :
  GLExpected.consumed x →
  GLExpected.has_value x = (false, x)
  ∧ GLExpected.has_error x = (false, x)
  ∧ GLExpected.value false x = AssertionFailed
  ∧ GLExpected.deref false x = AssertionFailed
  ∧ GLExpected.arrow false x = AssertionFailed
  ∧ GLExpected.take false x = AssertionFailed
  ∧ GLExpected.value_or x fallback = Done fallback
  ∧ GLExpected.dtor NDEBUG x = Done ()
  ∧ (∃ new, GLExpected.move mv x = Done (new, x) ∧ GLExpected.consumed new).
Proof.
  destruct x as [e u]. unfold GLExpected.consumed. cbn [GLExpected._error].
  intros ->. repeat split. eexists. by split.
Qed.

Lemma consumed_result_behaviour_witness :
  GLExpected.has_value (T:=Z) GLExpected.default = (false, GLExpected.default)
  ∧ GLExpected.value (T:=Z) false GLExpected.default = AssertionFailed
  ∧ GLExpected.take (T:=Z) false GLExpected.default = AssertionFailed
  ∧ GLExpected.dtor (T:=Z) false GLExpected.default = Done ().
Proof.
  destruct (consumed_result_behaviour (T:=Z) id GLExpected.default 0 false eq_refl)
    as (H1 & _ & H3 & _ & _ & H6 & _ & H8 & _).
  by repeat split.
Defined.

(** X9.  [take()] on a Result that holds a value neither consumes nor
    checks it: the Result is left exactly as it was, and the GLError
    returned carries the Result's error word with a null context and
    reports no error.  If the Result was unchecked, so is the GLError: both
    destructors stop in the assertion until each is tested. *)
Theorem take_on_value_is_no_check {T : Type} (x : GLExpected.t T) (v : T)
    (NDEBUG : bool) :
  GLExpected.holds_value x v →
  GLExpected.take NDEBUG x = Done (GLError.in_place (GLExpected._error x) None, x)
  ∧ (GLError.has_error (GLError.in_place (GLExpected._error x) None)).1 = false
  ∧ (GLExpected.unchecked x →
       GLError.dtor false (GLError.in_place (GLExpected._error x) None) = AssertionFailed
       ∧ GLExpected.dtor false x = AssertionFailed).
Proof.
  intros [Hp Hu].
  assert (Hi : (GLExpected._error x =? INVALID_ERROR) = false).
  { apply Z.eqb_neq. intros E. unfold GLExpected.peek in Hp. rewrite E in Hp.
    discriminate. }
  split; [|split].
  - unfold GLExpected.take, GLExpected._grab, assert_.
    rewrite Hi, Hp, orb_true_r. done.
  - unfold GLError.has_error, GLError._clean, GLError._checked, GLError.in_place.
    cbn [fst GLError._error]. rewrite clean_idem. unfold GLExpected.peek in Hp.
    rewrite Hp. apply andb_false_r.
  - intros Hx%unchecked_testbit. split.
    + rewrite GLError_dtor_testbit. cbn [GLError.in_place GLError._error].
      by rewrite Hx.
    + rewrite dtor_flagged by done. unfold GLExpected._result.
      by rewrite Hp, Hu, Hx.
Qed.

Lemma take_on_value_is_no_check_witness :
  GLExpected.take false (GLExpected.of_value 42)
  = Done (GLError.in_place UNCHECKED_FLAG None, GLExpected.of_value 42)
  ∧ GLError.dtor false (GLError.in_place UNCHECKED_FLAG None) = AssertionFailed
  ∧ GLExpected.dtor false (GLExpected.of_value 42) = AssertionFailed.
Proof.
  destruct (take_on_value_is_no_check (GLExpected.of_value 42) 42 false)
    as (Ht & _ & Hu); [split; reflexivity|].
  split; [exact Ht|]. apply Hu. vm_compute. discriminate.
Defined.

(** X10.  Both assignment operators destroy the target first.  Onto a
    Result that is still unchecked they stop in the destructor's assertion,
    whatever is assigned; onto a checked or consumed one, assigning a value
    gives a fresh unchecked Result that holds it, and assigning a Result is
    the move. *)
Theorem assignment_destroys_the_target_first {T : Type} (mv : T → T)
    (this right : GLExpected.t T) (v : T) (NDEBUG : bool) :
  Coroutine.well_formed this →
  (GLExpected.unchecked this →
     GLExpected.assign_value false this v = AssertionFailed
     ∧ GLExpected.assign mv false this right = AssertionFailed)
  ∧ (Z.land (GLExpected._error this) UNCHECKED_FLAG = 0 →
     GLExpected.assign_value NDEBUG this v = Done (GLExpected.of_value v)
     ∧ GLExpected.holds_value (GLExpected.of_value v) v
     ∧ GLExpected.unchecked (GLExpected.of_value v)
     ∧ GLExpected.assign mv NDEBUG this right = GLExpected.move mv right).
Proof.
  intros Hwf. unfold GLExpected.assign_value, GLExpected.assign.
  split.
  - intros Hu%unchecked_testbit. rewrite dtor_well_formed, Hu by done. by split.
  - intros H0. rewrite dtor_well_formed by done.
    assert (Hb : Z.testbit (GLExpected._error this) 31 = false).
    { pose proof (land_flag_testbit (GLExpected._error this)) as H.
      rewrite H0 in H. by destruct (Z.testbit _ 31). }
    rewrite Hb. unfold assert_. rewrite orb_true_r.
    split; [done|]. split; [by split|]. split; [|done].
    apply unchecked_testbit. reflexivity.
Qed.

Lemma assignment_destroys_the_target_first_witness :
  GLExpected.assign_value false (GLExpected.of_value 1) 2 = AssertionFailed
  ∧ GLExpected.assign_value false (GLExpected.has_value (GLExpected.of_value 1)).2 2
    = Done (GLExpected.of_value 2).
Proof.
  split.
  - destruct (assignment_destroys_the_target_first id (GLExpected.of_value 1)
                GLExpected.default 2 false) as [Hu _].
    + right. left. exists 1. split; reflexivity.
    + apply Hu. vm_compute. discriminate.
  - destruct (assignment_destroys_the_target_first id
                (GLExpected.has_value (GLExpected.of_value 1)).2
                GLExpected.default 2 false) as [_ Hc].
    + right. left. exists 1. split; reflexivity.
    + apply Hc. reflexivity.
Defined.

(** X11.  The converting move constructor, which carries a Result over to
    another value type.  From a Result that holds an error the new Result
    holds the same error word, flag included, and the same context, and the
    source is consumed; from one that holds a value the new Result holds the
    converted value under the same error word and the source is not
    consumed; from a consumed one the new Result is consumed. *)
Theorem move_convert_carries_the_state {T U : Type} (convert : U → T) (mv : U → U)
    (x : GLExpected.t U) :
  Coroutine.well_formed x →
  ∃ (new : GLExpected.t T) (src : GLExpected.t U),
    GLExpected.move_convert convert mv x = Done (new, src)
    ∧ GLExpected._error new = GLExpected._error x
    ∧ (∀ c, GLExpected.holds_error x c →
         GLExpected.holds_error new c ∧ GLExpected.consumed src)
    ∧ (∀ v, GLExpected.holds_value x v →
         GLExpected.holds_value new (convert v)
         ∧ GLExpected.holds_value src (mv v)
         ∧ GLExpected._error src = GLExpected._error x)
    ∧ (GLExpected.consumed x → GLExpected.consumed new ∧ src = x).
Proof.
  intros Hwf. unfold GLExpected.move_convert.
  destruct Hwf as [Hc|[[v [Hp Hu]]|[c (Hp & Hi & Hu)]]].
  - unfold GLExpected.consumed in Hc. rewrite Hc. cbn.
    do 2 eexists. split; [done|]. split; [done|].
    split; [intros c (_ & Hi & _); by rewrite Hc in Hi|].
    split; [|done]. intros v [Hp _]. unfold GLExpected.peek in Hp.
    rewrite Hc in Hp. discriminate.
  - assert (Hi : (GLExpected._error x =? INVALID_ERROR) = false).
    { apply Z.eqb_neq. intros E. unfold GLExpected.peek in Hp. rewrite E in Hp.
      discriminate. }
    rewrite Hi. change (GLExpected.peek (GLExpected.Build _ _)) with (GLExpected.peek x).
    rewrite Hp, Hu. cbn [mbind outcome_bind mret outcome_ret].
    do 2 eexists. split; [done|]. split; [done|].
    split; [intros c (Hp' & _); congruence|].
    split.
    + intros v' [_ Hu']. rewrite Hu in Hu'. injection Hu' as <-. by repeat split.
    + intros Hc. apply Z.eqb_neq in Hi. done.
  - apply Z.eqb_neq in Hi as Hi'. rewrite Hi'.
    change (GLExpected.peek (GLExpected.Build _ _)) with (GLExpected.peek x).
    rewrite Hp, Hu. cbn [mbind outcome_bind mret outcome_ret].
    do 2 eexists. split; [done|]. split; [done|].
    split.
    + intros c' (_ & _ & Hu'). rewrite Hu in Hu'. injection Hu' as <-.
      by repeat split.
    + split; [intros v [Hp' _]; congruence|done].
Qed.

Lemma move_convert_carries_the_state_witness :
  GLExpected.move_convert (T:=bool) (λ n : Z, n =? 0) id
    (GLExpected.Build GL_INVALID_ENUM (GLExpected.context_member (Some "glBindTexture")))
  = Done (GLExpected.Build GL_INVALID_ENUM (GLExpected.context_member (Some "glBindTexture")),
          GLExpected.Build INVALID_ERROR (GLExpected.context_member None))
  ∧ ∃ (new : GLExpected.t bool) (src : GLExpected.t Z),
      GLExpected.move_convert (λ n : Z, n =? 0) id (GLExpected.of_value 42)
      = Done (new, src)
      ∧ GLExpected._error new = UNCHECKED_FLAG.
Proof.
  split; [reflexivity|].
  destruct (move_convert_carries_the_state (λ n : Z, n =? 0) id (GLExpected.of_value 42))
    as (new & src & Hm & He & _).
  - right. left. exists 42. split; reflexivity.
  - by exists new, src.
Defined.

(** X12.  [promise_type::return_value], what a coroutine's [co_return]
    runs.  Given a return object whose own destructor passes: returning a
    Result that holds an error makes it the caller's Result, error word and
    context kept; returning a Result that holds a checked value makes the
    caller's Result hold that value; returning a Result that holds an
    unchecked value stops in an assertion (assertions live), because the
    moved-from parameter still carries the flag when it is destroyed. *)
Theorem return_value_hands_over {T : Type} (mv : T → T) (NDEBUG : bool)
    (p : promise_type.t T) (result : GLExpected.t T) :
  GLExpected.dtor NDEBUG (promise_type.expected p) = Done () →
  (∀ c, GLExpected.holds_error result c →
     promise_type.return_value mv NDEBUG p result
     = Done (promise_type.Build
               (GLExpected.Build (GLExpected._error result) (GLExpected.context_member c))))
  ∧ (∀ v, GLExpected.holds_value result v →
     Z.land (GLExpected._error result) UNCHECKED_FLAG = 0 →
     promise_type.return_value mv NDEBUG p result
     = Done (promise_type.Build
               (GLExpected.Build (GLExpected._error result) (GLExpected.result_member v))))
  ∧ (∀ v, GLExpected.holds_value result v → GLExpected.unchecked result →
     NDEBUG = false →
     promise_type.return_value mv NDEBUG p result = AssertionFailed).
Proof.
  intros Hd. unfold promise_type.return_value, GLExpected.assign. rewrite Hd.
  cbn [mbind outcome_bind].
  split; [|split].
  - intros c Hc. rewrite (move_error mv result c Hc). cbn [mbind outcome_bind].
    by destruct NDEBUG.
  - intros v Hv H0. rewrite (move_value mv result v Hv). cbn [mbind outcome_bind].
    destruct Hv as [Hp Hu].
    assert (Hwf : Coroutine.well_formed
              (GLExpected.Build (GLExpected._error result)
                 (GLExpected.result_member (mv v)))).
    { right. left. exists (mv v). by split. }
    rewrite (dtor_well_formed NDEBUG _ Hwf). cbn [GLExpected._error].
    pose proof (land_flag_testbit (GLExpected._error result)) as H.
    rewrite H0 in H. destruct (Z.testbit _ 31); [lia|].
    unfold assert_. by rewrite orb_true_r.
  - intros v Hv Hx%unchecked_testbit ->. rewrite (move_value mv result v Hv).
    cbn [mbind outcome_bind]. destruct Hv as [Hp Hu].
    assert (Hwf : Coroutine.well_formed
              (GLExpected.Build (GLExpected._error result)
                 (GLExpected.result_member (mv v)))).
    { right. left. exists (mv v). by split. }
    rewrite (dtor_well_formed false _ Hwf). cbn [GLExpected._error].
    by rewrite Hx.
Qed.

Lemma return_value_hands_over_witness :
  promise_type.return_value id false (promise_type.Build GLExpected.default)
    (GLExpected.of_value 42) = AssertionFailed
  ∧ promise_type.return_value id false (promise_type.Build GLExpected.default)
      (GLExpected.has_value (GLExpected.of_value 42)).2
    = Done (promise_type.Build (GLExpected.Build 0 (GLExpected.result_member 42))).
Proof.
  split.
  - destruct (return_value_hands_over id false (promise_type.Build GLExpected.default)
                (GLExpected.of_value 42) eq_refl) as (_ & _ & Hu).
    apply (Hu 42); [split; reflexivity| |reflexivity]. vm_compute. discriminate.
  - destruct (return_value_hands_over id false (promise_type.Build GLExpected.default)
                (GLExpected.has_value (GLExpected.of_value 42)).2 eq_refl) as (_ & Hc & _).
    apply (Hc 42); [split; reflexivity|reflexivity].
Defined.

(** ** The void specialization *)

(** X13.  Observers of [GLExpected<void>].  [has_value()] is the negation
    of [has_error()] and both leave the same, checked object, whose
    destructor passes.  [has_value()] and [peek()] agree except on the
    invalid sentinel, where [has_value()] answers yes and [peek()] no.  A
    default-constructed one is a success that is still unchecked: it peeks
    as clean, and destroying it untested stops in the assertion. *)
Theorem void_result_observers (x : GLExpected_void.t) (NDEBUG : bool) :
  (GLExpected_void.has_value x).1 = negb (GLExpected_void.has_error x).1
  ∧ (GLExpected_void.has_value x).2 = (GLExpected_void.has_error x).2
  ∧ GLExpected_void.dtor NDEBUG (GLExpected_void.has_value x).2 = Done ()
  ∧ (GLExpected_void.peek x = true → (GLExpected_void.has_value x).1 = true)
  ∧ ((GLExpected_void.has_value x).1 = true ∧ GLExpected_void.peek x = false
     ↔ GLError._clean (GLExpected_void._error x) = INVALID_ERROR)
  ∧ GLExpected_void.peek GLExpected_void.default = true
  ∧ (GLExpected_void.has_value GLExpected_void.default).1 = true
  ∧ GLExpected_void.dtor false GLExpected_void.default = AssertionFailed.
Proof.
  unfold GLExpected_void.has_value, GLExpected_void.has_error, GLExpected_void.peek,
    GLExpected_void.dtor.
  pose proof (GLError_dtor_checked NDEBUG (GLExpected_void._error x)) as Hd.
  unfold GLError.has_error, GLError.peek in *. cbn [fst snd] in *.
  rewrite GLError_clean_checked.
  split; [done|]. split; [done|]. split; [exact Hd|].
  split.
  { intros ->%Z.eqb_eq. reflexivity. }
  split; [|done].
  rewrite negb_true_iff, andb_false_iff, !negb_false_iff, !Z.eqb_eq, Z.eqb_neq.
  split.
  - intros [[?|?] ?]; done.
  - intros E. rewrite E. split; [by left|done].
Qed.

(** X14.  Assigning a GLError to a [GLExpected<void>] destroys the member
    first: onto a Result that was never tested, a default-constructed one
    included, it stops in the assertion.  Onto a tested Result it takes the
    GLError over with its error word and its context, leaves the GLError a
    checked no-error, and the Result then reports an error exactly when the
    GLError did. *)
Theorem void_result_assignment (this : GLExpected_void.t) (right : GLError.t)
    (NDEBUG : bool) :
  GLExpected_void.assign_error false GLExpected_void.default right = AssertionFailed
  ∧ GLExpected_void.assign_error NDEBUG (GLExpected_void.has_value this).2 right
    = Done (GLExpected_void.Build right, GLError.Build GL_NO_ERROR None)
  ∧ (GLExpected_void.has_error (GLExpected_void.Build right)).1
    = (GLError.has_error right).1
  ∧ GLExpected_void.assign NDEBUG (GLExpected_void.has_value this).2
      (GLExpected_void.Build right)
    = Done (GLExpected_void.Build right,
            GLExpected_void.Build (GLError.Build GL_NO_ERROR None))
  ∧ GLExpected_void.assign false GLExpected_void.default (GLExpected_void.Build right)
    = AssertionFailed.
Proof.
  pose proof (GLError_dtor_checked NDEBUG (GLExpected_void._error this)) as Hd.
  unfold GLExpected_void.assign_error, GLExpected_void.assign, GLError.assign,
    GLExpected_void.has_value, GLExpected_void.has_error.
  destruct (GLError.has_error (GLExpected_void._error this)) as [b e] eqn:He.
  cbn [fst snd GLExpected_void._error] in *. rewrite Hd.
  destruct right as [err ctx]. cbn [GLError._error GLError._context].
  by repeat split.
Qed.

(** ** The test program *)

Section BehaviorFacts.
Context (FG_Keys_LMENU FG_WindowFlag_CLOSED : Z).
Local Abbreviation behavior := (CppTest.behavior FG_Keys_LMENU FG_WindowFlag_CLOSED).
Local Abbreviation deliver := (CppTest.deliver FG_Keys_LMENU FG_WindowFlag_CLOSED).

Lemma behavior_keeps_closed (e : CppTest.MockElement) (m : CppTest.FG_Msg) :
  CppTest.close e = true → CppTest.close (behavior e m).1.2 = true.
Proof.
  intros Hc. destruct m as [| |f|key sc| |]; cbn; try done.
  - by rewrite Hc.
  - by destruct (_ && _).
Qed.

Lemma behavior_keeps_fields (e : CppTest.MockElement) (m : CppTest.FG_Msg) :
  let e' := (behavior e m).1.2 in
  CppTest.image e' = CppTest.image e ∧ CppTest.shader e' = CppTest.shader e
  ∧ CppTest.vertices e' = CppTest.vertices e ∧ CppTest.pipeline e' = CppTest.pipeline e
  ∧ CppTest.flags e' = CppTest.flags e.
Proof.
  destruct m as [| |f|key sc| |]; cbn; try done.
  by destruct (_ && _).
Qed.

Lemma deliver_keeps_closed (ms : list CppTest.FG_Msg) (e : CppTest.MockElement) :
  CppTest.close e = true → CppTest.close (deliver e ms).1 = true.
Proof.
  revert e. induction ms as [|m ms IH]; intros e Hc; [done|]. simpl.
  pose proof (behavior_keeps_closed e m Hc) as H1.
  destruct (behavior e m) as [[r e1] calls]. cbn [fst snd] in H1.
  specialize (IH e1 H1). by destruct (deliver e1 ms).
Qed.

Lemma deliver_app (ms1 ms2 : list CppTest.FG_Msg) (e : CppTest.MockElement) :
  deliver e (ms1 ++ ms2)
  = ((deliver (deliver e ms1).1 ms2).1,
     (deliver e ms1).2 ++ (deliver (deliver e ms1).1 ms2).2).
Proof.
  revert e. induction ms1 as [|m ms1 IH]; intros e; simpl.
  - by destruct (deliver e ms2).
  - destruct (behavior e m) as [[r e1] calls]. rewrite IH.
    destruct (deliver e1 ms1) as [e2 calls1]. cbn [fst snd].
    destruct (deliver e2 ms2) as [e3 calls2]. cbn [fst snd].
    by rewrite (assoc (++)).
Qed.

End BehaviorFacts.

(** X15.  The behavior function of the test program's window.  Once the
    element is marked closed no message opens it again: whatever messages
    follow a mouse click, or a key press that is neither the left menu key
    nor one of the scancodes 84 and 88, the element is closed at the end and
    a query for the window flags answers [FG_WindowFlag_CLOSED].  A key
    press with the left menu key or with scancode 84 or 88 leaves the element
    as it was.  No message changes any field but [close]. *)
Theorem behavior_close_is_sticky (FG_Keys_LMENU FG_WindowFlag_CLOSED : Z)
    (e : CppTest.MockElement) (before after : list CppTest.FG_Msg)
    (m : CppTest.FG_Msg) (key scancode : Z) :
  let deliver := CppTest.deliver FG_Keys_LMENU FG_WindowFlag_CLOSED in
  let behavior := CppTest.behavior FG_Keys_LMENU FG_WindowFlag_CLOSED in
  (key ≠ FG_Keys_LMENU ∧ scancode ≠ 84 ∧ scancode ≠ 88 →
   CppTest.close
     (deliver e (before ++ [CppTest.FG_Kind_KEYDOWN key scancode] ++ after)).1 = true)
  ∧ CppTest.close (deliver e (before ++ [CppTest.FG_Kind_MOUSEDOWN] ++ after)).1 = true
  ∧ (CppTest.close e = true →
     (behavior (deliver e after).1 CppTest.FG_Kind_GETWINDOWFLAGS).1.1
     = FG_WindowFlag_CLOSED)
  ∧ (key = FG_Keys_LMENU ∨ scancode = 84 ∨ scancode = 88 →
     (behavior e (CppTest.FG_Kind_KEYDOWN key scancode)).1.2 = e)
  ∧ (CppTest.image (behavior e m).1.2 = CppTest.image e
     ∧ CppTest.shader (behavior e m).1.2 = CppTest.shader e
     ∧ CppTest.vertices (behavior e m).1.2 = CppTest.vertices e
     ∧ CppTest.pipeline (behavior e m).1.2 = CppTest.pipeline e
     ∧ CppTest.flags (behavior e m).1.2 = CppTest.flags e).
Proof.
  intros deliver behavior.
  assert (Hseq : ∀ m0,
            (∀ e0, CppTest.close (behavior e0 m0).1.2 = true) →
            CppTest.close (deliver e (before ++ [m0] ++ after)).1 = true).
  { intros m0 Hm0. unfold deliver. rewrite deliver_app. cbn [fst].
    set (e1 := (CppTest.deliver FG_Keys_LMENU FG_WindowFlag_CLOSED e before).1).
    specialize (Hm0 e1). unfold behavior in Hm0.
    change ([m0] ++ after) with (m0 :: after). cbn [CppTest.deliver].
    destruct (CppTest.behavior _ _ e1 m0) as [[r e2] calls]. cbn [fst snd] in Hm0.
    pose proof (deliver_keeps_closed FG_Keys_LMENU FG_WindowFlag_CLOSED after e2 Hm0)
      as Hk.
    by destruct (CppTest.deliver _ _ e2 after). }
  split.
  { intros (Hk & H84 & H88). apply Hseq. intros e0. unfold behavior. cbn.
    apply Z.eqb_neq in Hk, H84, H88. by rewrite Hk, H84, H88. }
  split; [by apply Hseq|].
  split.
  { intros Hc. unfold behavior. cbn. unfold deliver.
    by rewrite (deliver_keeps_closed _ _ after e Hc). }
  split; [|apply behavior_keeps_fields].
  intros Hor. unfold behavior. cbn.
  assert (Hf : negb (key =? FG_Keys_LMENU) && negb (scancode =? 84)
               && negb (scancode =? 88) = false).
  { destruct Hor as [->|[->| ->]]; rewrite ?Z.eqb_refl; cbn;
      rewrite ?andb_false_r; done. }
  by rewrite Hf.
Qed.

Lemma behavior_close_is_sticky_witness :
  let e := CppTest.Build 0 0 0 0 2 false in
  CppTest.close
    (CppTest.deliver 164 1 e
       ([CppTest.FG_Kind_DRAW] ++ [CppTest.FG_Kind_KEYDOWN 65 30]
        ++ [CppTest.FG_Kind_SETWINDOWFLAGS 0; CppTest.FG_Kind_DRAW])).1 = true
  ∧ (CppTest.behavior 164 1 e (CppTest.FG_Kind_KEYDOWN 164 56)).1.2 = e
  ∧ (CppTest.behavior 164 1 (CppTest.Build 0 0 0 0 2 true)
       CppTest.FG_Kind_GETWINDOWFLAGS).1.1 = 1.
Proof.
  intros e.
  destruct (behavior_close_is_sticky 164 1 e [CppTest.FG_Kind_DRAW]
              [CppTest.FG_Kind_SETWINDOWFLAGS 0; CppTest.FG_Kind_DRAW]
              CppTest.FG_Kind_DRAW 65 30) as (Hk & _ & _ & _ & _).
  destruct (behavior_close_is_sticky 164 1 e [] [] CppTest.FG_Kind_DRAW 164 56)
    as (_ & _ & _ & Hs & _).
  destruct (behavior_close_is_sticky 164 1 (CppTest.Build 0 0 0 0 2 true) [] []
              CppTest.FG_Kind_DRAW 0 0) as (_ & _ & Hg & _ & _).
  split; [apply Hk; repeat split; discriminate|].
  split; [apply Hs; by left|]. by apply Hg.
Defined.

(** X16.  Only a draw message reaches the backend: over any run of
    messages the calls made are, for each draw message in order, the four
    calls [beginDraw], [createCommandList], [execute], [destroyCommandList],
    and nothing else; a draw message answers 0 and every message other than
    a draw or a query for the window flags answers -1. *)
Theorem behavior_calls_backend_only_to_draw (FG_Keys_LMENU FG_WindowFlag_CLOSED : Z)
    (e : CppTest.MockElement) (ms : list CppTest.FG_Msg) (m : CppTest.FG_Msg) :
  (CppTest.deliver FG_Keys_LMENU FG_WindowFlag_CLOSED e ms).2
  = ms ≫= (λ m, match m with
                | CppTest.FG_Kind_DRAW =>
                    [CppTest.beginDraw; CppTest.createCommandList; CppTest.execute;
                     CppTest.destroyCommandList]
                | _ => []
                end)
  ∧ length (CppTest.deliver FG_Keys_LMENU FG_WindowFlag_CLOSED e ms).2
    = (4 * length (filter (λ m, m = CppTest.FG_Kind_DRAW) ms))%nat
  ∧ (CppTest.behavior FG_Keys_LMENU FG_WindowFlag_CLOSED e CppTest.FG_Kind_DRAW).1.1 = 0
  ∧ (m = CppTest.FG_Kind_DRAW ∨ m = CppTest.FG_Kind_GETWINDOWFLAGS
     ∨ (CppTest.behavior FG_Keys_LMENU FG_WindowFlag_CLOSED e m).1.1 = -1).
Proof.
  assert (Hcalls : ∀ ms e,
    (CppTest.deliver FG_Keys_LMENU FG_WindowFlag_CLOSED e ms).2
    = ms ≫= (λ m, match m with
                  | CppTest.FG_Kind_DRAW =>
                      [CppTest.beginDraw; CppTest.createCommandList; CppTest.execute;
                       CppTest.destroyCommandList]
                  | _ => []
                  end)).
  { clear. induction ms as [|m ms IH]; intros e; [done|].
    rewrite bind_cons. cbn [CppTest.deliver].
    destruct (CppTest.behavior _ _ e m) as [[r e1] calls] eqn:Hb.
    specialize (IH e1).
    destruct (CppTest.deliver _ _ e1 ms) as [e2 calls']. cbn [snd] in *.
    rewrite IH. f_equal.
    destruct m; cbn in Hb; by injection Hb as <- <- <-. }
  split; [apply Hcalls|]. split.
  - rewrite Hcalls. clear. induction ms as [|m ms IH]; [done|].
    rewrite bind_cons, length_app, IH, filter_cons.
    destruct m; (rewrite decide_True by done) || (rewrite decide_False by done);
      cbn [length]; lia.
  - split; [done|]. destruct m; cbn; auto.
Qed.

(** ** Construction from a GLError that carries no error *)

(** X17.  [GLExpected(GLError&&)] does not look at what the GLError holds
    beyond the invalid sentinel.  Given a GLError that carries no error
    (one that peeks as clean), it builds a Result that answers
    [has_value()] with yes although no value was ever constructed: reading
    it through [value()] or [value_or], and destroying it, read the union
    member that is not the live one.  Given an invalid GLError it builds a
    consumed Result and leaves the GLError as it was. *)
Theorem of_error_without_error {T : Type} (e : GLError.t) (fallback : T)
    (NDEBUG : bool) :
  (GLError.peek e = true →
     (GLExpected.has_value (GLExpected.of_error (T:=T) e).1).1 = true
     ∧ GLExpected._union (GLExpected.of_error (T:=T) e).1 = GLExpected.context_member None
     ∧ GLExpected.value NDEBUG (GLExpected.of_error (T:=T) e).1 = Undefined
     ∧ GLExpected.value_or (GLExpected.of_error (T:=T) e).1 fallback = Undefined
     ∧ GLExpected.dtor NDEBUG (GLExpected.of_error (T:=T) e).1 = Undefined)
  ∧ (GLError._error e = INVALID_ERROR →
     GLExpected.consumed (GLExpected.of_error (T:=T) e).1
     ∧ (GLExpected.of_error (T:=T) e).2 = e).
Proof.
  split.
  - unfold GLError.peek, GLError._clean. intros Hp%Z.eqb_eq.
    assert (Hi : (GLError._error e =? INVALID_ERROR) = false).
    { apply Z.eqb_neq. intros E. rewrite E in Hp. discriminate. }
    assert (Ho : GLExpected.of_error (T:=T) e
                 = (GLExpected.Build (GLError._error e) (GLExpected.context_member None),
                    GLError.Build GL_NO_ERROR None)).
    { unfold GLExpected.of_error, GLError.take. rewrite Hi. cbn iota.
      by rewrite Hi. }
    rewrite Ho. cbn [fst].
    assert (Hpk : GLExpected.peek (T:=T)
              (GLExpected.Build (GLError._error e) (GLExpected.context_member None)) = true).
    { unfold GLExpected.peek. cbn [GLExpected._error]. by apply Z.eqb_eq. }
    split; [unfold GLExpected.has_value; cbn [fst]; by rewrite peek_checked|].
    split; [done|].
    split; [by rewrite value_when_peek|].
    split; [unfold GLExpected.value_or; by rewrite Hpk|].
    unfold GLExpected.dtor. cbn [GLExpected._error]. by rewrite Hi, Hpk.
  - intros E. unfold GLExpected.of_error, GLError.take. rewrite E. by cbn.
Qed.

Lemma of_error_without_error_witness :
  (GLExpected.has_value (GLExpected.of_error (T:=Z) (GLError.of_context GL_NO_ERROR
     (Some "glBindTexture"))).1).1 = true
  ∧ GLExpected.value false (GLExpected.of_error (T:=Z) (GLError.of_context GL_NO_ERROR
      (Some "glBindTexture"))).1 = Undefined
  ∧ GLExpected.consumed (GLExpected.of_error (T:=Z) (GLError.in_place INVALID_ERROR None)).1.
Proof.
  destruct (of_error_without_error (T:=Z)
              (GLError.of_context GL_NO_ERROR (Some "glBindTexture")) 0 false) as [Hp _].
  destruct (of_error_without_error (T:=Z)
              (GLError.in_place INVALID_ERROR None) 0 false) as [_ Hi].
  destruct (Hp eq_refl) as (H1 & _ & H3 & _).
  destruct (Hi eq_refl) as (H4 & _).
  by repeat split.
Defined.
